(** * CombinedEnv: the economic / diplomatic multi-agent environment

    A shallow embedding of [Source/Prototypes/PrototypeVer2_ps/combined_env.py]
    (class [CombinedEnv], methods [reset], [step] and [render]).

    Conventions of the embedding.
    - numpy arrays of floats are lists of mathematical reals ([R]); a 2-D
      array is a list of rows.  Rounding, [astype(np.float32)], NaN and
      infinities are outside the model: arithmetic is exact.  Line 194 is
      given a second time in binary64 ([int_rate_f64]), where rounding
      and overflow change the range of the interest-rate proxy.
    - the process-wide generator behind [np.random.randn],
      [np.random.choice] and [np.random.uniform] is an explicit
      [RandomState] threaded through [reset] and [step].
    - Python exceptions are the [Raise] results of type [result]. *)

From Stdlib Require Import String Ascii Decimal DecimalString.
From Stdlib Require Import Reals Lra Lia Arith Bool List ZArith.
Import ListNotations.
Open Scope R_scope.

Set Implicit Arguments.

(** ** Exceptions and results *)

Inductive exn : Type :=
| KeyError
| ValueError
| AssertionError
| NotImplementedError.

Inductive result (A : Type) : Type :=
| Ok (a : A)
| Raise (e : exn).

Arguments Ok {A} a.
Arguments Raise {A} e.

Definition rbind {A B : Type} (r : result A) (k : A -> result B) : result B :=
  match r with
  | Ok a => k a
  | Raise e => Raise e
  end.

(** ** Vectors and matrices *)

Definition vec := list R.
Definition matrix := list (list R).

Section Map2.
Variables A B C : Type.
Variable f : A -> B -> C.

(** Elementwise combination of two arrays of the same shape. *)
Fixpoint map2 (xs : list A) (ys : list B) : list C :=
  match xs, ys with
  | x :: xs', y :: ys' => f x y :: map2 xs' ys'
  | _, _ => []
  end.
End Map2.

(** [enumerate(xs)] *)
Definition enumerate {A : Type} (xs : list A) : list (nat * A) :=
  combine (seq 0 (length xs)) xs.

(** [np.sum] of a 1-D array *)
Definition Rsum (xs : vec) : R := fold_right Rplus 0 xs.

(** [np.mean] and [np.std] (population standard deviation, ddof = 0) *)
Definition mean (xs : vec) : R := Rsum xs / INR (length xs).

Definition std (xs : vec) : R :=
  sqrt (mean (map (fun x => Rsqr (x - mean xs)) xs)).

(** number of columns of a 2-D array *)
Definition width (M : matrix) : nat :=
  match M with
  | [] => 0%nat
  | r :: _ => length r
  end.

(** column [j] of a 2-D array *)
Definition col (j : nat) (M : matrix) : vec := map (fun r => nth j r 0) M.

(** [M.T] *)
Definition transpose (M : matrix) : matrix :=
  map (fun j => col j M) (seq 0 (width M)).

(** [a.reshape(-1, 1) - b.reshape(1, -1)] *)
Definition outer_sub (a b : vec) : matrix :=
  map (fun x => map (fun y => x - y) b) a.

(** elementwise map over a 2-D array *)
Definition mmap (f : R -> R) (M : matrix) : matrix := map (map f) M.

(** elementwise combination of two 2-D arrays of the same shape *)
Definition mmap2 (f : R -> R -> R) (A B : matrix) : matrix :=
  map2 (map2 f) A B.

(** [np.sum(M, axis=0, keepdims=True)]: one total per column *)
Definition sum_axis0 (M : matrix) : vec := map Rsum (transpose M).

(** [np.sum(M, axis=1, keepdims=True)]: one total per row *)
Definition sum_axis1 (M : matrix) : vec := map Rsum M.

(** [M / d] with [d] of shape (1, n): column [j] is divided by [d[j]] *)
Definition div_by_row (M : matrix) (d : vec) : matrix :=
  map (fun r => map2 Rdiv r d) M.

(** [M / d] with [d] of shape (n, 1): row [i] is divided by [d[i]] *)
Definition div_by_col (M : matrix) (d : vec) : matrix :=
  map2 (fun r di => map (fun x => x / di) r) M d.

(** [xs[i] = v] on a copy; out of range leaves the array as it is
    (never reached: every index used below is in range). *)
Fixpoint set_nth {A : Type} (i : nat) (xs : list A) (v : A) : list A :=
  match xs, i with
  | [], _ => []
  | _ :: xs', O => v :: xs'
  | x :: xs', S i' => x :: set_nth i' xs' v
  end.

(** [np.fill_diagonal(M, v)] on a copy of [M] *)
Definition fill_diagonal (M : matrix) (v : R) : matrix :=
  map (fun ir => set_nth (fst ir) (snd ir) v) (enumerate M).

(** dot product and [M @ v] *)
Definition dot (a b : vec) : R := Rsum (map2 Rmult a b).
Definition matvec (M : matrix) (v : vec) : vec := map (fun r => dot r v) M.

(** [np.eye(n)] *)
Definition eye (n : nat) : matrix :=
  map (fun i => map (fun j => if Nat.eqb i j then 1 else 0) (seq 0 n)) (seq 0 n).

(** [np.hstack((A, B))] for 2-D arrays with the same number of rows *)
Definition hstack (A B : matrix) : matrix := map2 (@app R) A B.

(** [np.roll(M, k, axis=0)]: row [r] moves to row [(r + k) mod n] *)
Definition roll {A : Type} (k : nat) (rows : list A) : list A :=
  let n := length rows in
  match n with
  | O => rows
  | _ => skipn (n - k mod n) rows ++ firstn (n - k mod n) rows
  end.

(** [M.flatten()] *)
Definition flatten (M : matrix) : vec := concat M.

(** [x.cumsum()] *)
Fixpoint cumsum_from (acc : R) (xs : vec) : vec :=
  match xs with
  | [] => []
  | x :: xs' => (acc + x) :: cumsum_from (acc + x) xs'
  end.

Definition cumsum (xs : vec) : vec := cumsum_from 0 xs.

(** [one_hot(c, depth=n)] of [ray.rllib.utils.numpy] *)
Definition one_hot (c n : nat) : vec :=
  map (fun k => if Nat.eqb k c then 1 else 0) (seq 0 n).

(** numpy broadcasting of a 1-D array against shape (n,) *)
Definition broadcast_to (n : nat) (v : vec) : result vec :=
  if Nat.eqb (length v) n then Ok v
  else match v with
       | [x] => Ok (repeat x n)
       | _ => Raise ValueError
       end.

(** ** The random generator

    [np.random] keeps one generator for the whole process.  Its state is
    modelled by what it is going to deliver: the standard normal variates
    served to [randn] and the variates of [0, 1) served to
    [random_sample], [uniform] and [choice]. *)

Record RandomState : Type := mkRandomState {
  gauss : nat -> R;
  unif : nat -> R
}.

(** [np.random.randn(n)] *)
Definition randn (n : nat) (g : RandomState) : vec * RandomState :=
  (map (gauss g) (seq 0 n),
   mkRandomState (fun k => gauss g (n + k)%nat) (unif g)).

(** [np.random.uniform(size=n)] *)
Definition uniform (n : nat) (g : RandomState) : vec * RandomState :=
  (map (unif g) (seq 0 n),
   mkRandomState (gauss g) (fun k => unif g (n + k)%nat)).

(** tolerance of [choice] on the total of the probabilities:
    [np.sqrt(np.finfo(np.float64).eps)] *)
Definition choice_atol : R := sqrt (/ 2 ^ 52).

(** [cdf.searchsorted(u, side='right')] on a non-decreasing [cdf] *)
Definition searchsorted_right (cdf : vec) (u : R) : nat :=
  length (filter (fun c => if Rle_dec c u then true else false) cdf).

(** [np.random.choice(n, p=p)]: the size, sign and total of [p] are
    checked, then one variate is looked up in the normalised cumulative
    sums. *)
Definition choice (n : nat) (p : vec) (g : RandomState)
  : result (nat * RandomState) :=
  if negb (Nat.eqb (length p) n) then Raise ValueError
  else if existsb (fun x => if Rlt_dec x 0 then true else false) p
  then Raise ValueError
  else if Rgt_dec (Rabs (Rsum p - 1)) choice_atol then Raise ValueError
  else
    let cdf := cumsum p in
    let cdf := map (fun c => c / last cdf 0) cdf in
    let '(u, g') := uniform 1 g in
    Ok (searchsorted_right cdf (hd 0 u), g').

(** ** Module constants and the agents *)

Definition N : nat := 7.

(** [f"agent_{i}"] *)
Definition agent_name (i : nat) : string :=
  ("agent_" ++ NilEmpty.string_of_uint (Nat.to_uint i))%string.

Definition possible_agents : list string := map agent_name (seq 0 N).

(** ** Constants set by [__init__] *)

Definition std_pgdp : R := 0.1.
Definition std_gdp : R := 0.1.
Definition std_ppl : R := 0.1.
Definition std_pl : R := 0.1.
Definition std_pne : R := 0.1.
Definition std_ne : R := 0.1.
Definition ex_int_degree : R := 1.
Definition delta : R := 0.01.
Definition tau_values : vec := [0.95; 0.90; 0.85; 0.80; 0.75; 0.70; 0.65].
Definition kappa : R := 100.
Definition inf_target : R := 0.02.
Definition constant : R := 0.01.

(** ** The environment object

    The attributes of a [CombinedEnv] instance.  Those that only [step]
    creates ([one_plus_int_rate] ... [eco_reward]) hold empty arrays after
    [reset]; nothing reads them before [step] has assigned them. *)

Record Env : Type := mkEnv {
  render_mode : option string;
  agents : list string;
  t : nat;
  prev_gdp : vec;
  gdp : vec;
  GDP : vec;
  one_plus_gdp_growth_rate : vec;
  prev_price_lvl : vec;
  price_lvl : vec;
  one_plus_inf_rate : vec;
  PREV_NET_EX : vec;
  NET_EX : vec;
  eco_observation : matrix;
  affinity : matrix;
  delta_affinity : matrix;
  one_plus_int_rate : vec;
  total_demand : vec;
  nom_exchange_rate : matrix;
  real_exchange_rate : matrix;
  FOR_EXP : vec;
  TRADE_COEFF : matrix;
  EX : vec;
  TRADE_COEFF_STAR : matrix;
  EX_STAR : vec;
  IM : vec;
  eco_reward : vec
}.

(** [ParallelEnv.num_agents] is [len(self.agents)] *)
Definition num_agents (agents_now : list string) : nat := length agents_now.

(** one action of the space [act_space]: ['eco'] of shape (1,) and
    ['pol'] of shape (2 N,) *)
Record Action : Type := mkAction {
  eco : R;
  pol : vec
}.

(** what [step] returns *)
Record StepOut : Type := mkStepOut {
  observations : list (string * vec);
  rewards : list (string * R);
  terminations : list (string * bool);
  truncations : list (string * bool);
  infos : list (string * list (string * R))
}.

(** dictionary lookup [d[k]] *)
Fixpoint getitem {V : Type} (d : list (string * V)) (k : string) : result V :=
  match d with
  | [] => Raise KeyError
  | (k', v) :: d' => if String.eqb k' k then Ok v else getitem d' k
  end.

(** [[actions[agent] for agent in self.agents]] *)
Fixpoint gather {V : Type} (keys : list string) (d : list (string * V))
  : result (list V) :=
  match keys with
  | [] => Ok []
  | k :: keys' =>
      rbind (getitem d k) (fun v =>
      rbind (gather keys' d) (fun vs => Ok (v :: vs)))
  end.

(** ** Observations (lines 178-182 and 254-258) *)

(** the 2-D array of agent [i] before [flatten] *)
Definition observation_matrix (eco_obs aff : matrix) (i : nat) : matrix :=
  roll i (hstack eco_obs aff).

Definition build_observations (agents_now : list string)
  (eco_obs aff : matrix) : list (string * vec) :=
  map (fun ia => (snd ia, flatten (observation_matrix eco_obs aff (fst ia))))
      (enumerate agents_now).

(** ** [reset] *)

Definition reset (mode : option string) (seed : option nat)
  (g : RandomState) : (list (string * vec) * list (string * list (string * R)))
                      * Env * RandomState :=
  let agents0 := possible_agents in
  let n := num_agents agents0 in
  let '(z1, g1) := randn n g in
  let prev_gdp0 := map (Rmult std_pgdp) z1 in
  let '(z2, g2) := randn n g1 in
  let gdp0 := map (Rmult std_gdp) z2 in
  let GDP0 := map exp gdp0 in
  let growth0 := map2 Rminus gdp0 prev_gdp0 in
  let '(z3, g3) := randn n g2 in
  let prev_price0 := map (Rmult std_ppl) z3 in
  let '(z4, g4) := randn n g3 in
  let price0 := map (Rmult std_pl) z4 in
  let inf0 := map2 Rminus price0 prev_price0 in
  let '(z5, g5) := randn n g4 in
  let PREV_NET_EX0 := map (fun z => exp (std_pne * z)) z5 in
  let '(z6, g6) := randn n g5 in
  let NET_EX0 := map (fun z => exp (std_ne * z)) z6 in
  let eco_obs := transpose [gdp0; growth0; price0; inf0] in
  let aff := eye n in
  let obs := build_observations agents0 eco_obs aff in
  let infos0 := map (fun a => (a, @nil (string * R))) agents0 in
  ((obs, infos0),
   mkEnv mode agents0 0 prev_gdp0 gdp0 GDP0 growth0 prev_price0 price0 inf0
         PREV_NET_EX0 NET_EX0 eco_obs aff aff
         [] [] [] [] [] [] [] [] [] [] [],
   g6).

(** ** [render] (lines 85-155)

    Printing is not modelled; [step] discards what [render] returns, so
    only the mode dispatch of line 86-91 is visible to it. *)

Definition render (mode : option string) : result unit :=
  match mode with
  | Some m =>
      if String.eqb m "human" then Ok tt
      else if String.eqb m "array" then Ok tt
      else Raise NotImplementedError
  | None => Raise NotImplementedError
  end.

(** ** The economic phase of [step] (lines 194-228) *)

(** line 194 *)
Definition int_rate (a : R) : R := 0.20 / (1 + exp (- a)).

(** lines 202-204 *)
Definition trade_coeff (real : matrix) : matrix :=
  let NUM := transpose (mmap exp real) in
  let DEN := sum_axis0 NUM in
  div_by_row NUM DEN.

(** lines 208-210 *)
Definition trade_coeff_star (real : matrix) : matrix :=
  let NUM_STAR := mmap exp real in
  let DEN_STAR := sum_axis1 NUM_STAR in
  div_by_col NUM_STAR DEN_STAR.

(** lines 205-207 *)
Definition exports (real : matrix) (for_exp : vec) : vec :=
  let TEMP := fill_diagonal (trade_coeff real) 0 in
  matvec (transpose TEMP) for_exp.

(** lines 211-213 *)
Definition exports_star (real : matrix) (for_exp : vec) : vec :=
  let TEMP_STAR := fill_diagonal (trade_coeff_star real) 0 in
  matvec TEMP_STAR for_exp.

(** line 228, one agent *)
Definition eco_reward_of (growth inflation : R) : R :=
  (exp growth - 1) - kappa * Rsqr (exp inflation - 1 - inf_target).

Definition economy (st : Env) (eco_actions : vec) : Env :=
  let rate := map int_rate eco_actions in
  let demand := map2 Rminus (gdp st) rate in
  let price_diff := outer_sub (price_lvl st) (price_lvl st) in
  let int_rate_diff := outer_sub rate rate in
  let nom := mmap2 Rminus price_diff (mmap (Rmult ex_int_degree) int_rate_diff) in
  let real := mmap (fun d => - ex_int_degree * d) int_rate_diff in
  let for_exp := map2 (fun tau d => (1 - tau) * exp d) tau_values demand in
  let coeff := trade_coeff real in
  let TEMP := fill_diagonal coeff 0 in
  let ex := exports real for_exp in
  let coeff_star := trade_coeff_star real in
  let ex_star := exports_star real for_exp in
  let im := map2 Rmult (sum_axis1 TEMP) for_exp in
  let net_ex := map2 Rminus ex im in
  let price1 :=
    map2 Rminus
      (map2 Rplus (map (fun p => ln (exp p)) (price_lvl st))
         (map2 (fun ne d => ln (Rmax 1e-10 (1 + ne / exp d))) net_ex demand))
      rate in
  let price2 := map (fun p => (p - mean price1) / std price1) price1 in
  let inf := map2 Rminus price2 (price_lvl st) in
  let GDP1 := map2 (fun d ne => exp d + ne) demand net_ex in
  let gdp1 := map ln GDP1 in
  let gdp2 :=
    map (fun y => (y - mean gdp1 + constant * INR (t st)) / std gdp1) gdp1 in
  let growth := map2 Rminus gdp2 (gdp st) in
  let eco_obs := transpose [gdp2; growth; price2; inf] in
  let reward := map2 eco_reward_of growth inf in
  mkEnv (render_mode st) (agents st) (t st)
        (gdp st) gdp2 GDP1 growth
        (price_lvl st) price2 inf
        (NET_EX st) net_ex
        eco_obs (affinity st) (delta_affinity st)
        rate demand nom real for_exp coeff ex coeff_star ex_star im reward.

(** ** The diplomatic phase of [step] (lines 231-252) *)

(** line 233 *)
Definition softmax (x : vec) : vec :=
  map (fun e => e / Rsum (map exp x)) (map exp x).

(** line 234 *)
Definition sigmoid (x : R) : R := 1 / (1 + exp x).

(** one turn of the loop of lines 235-247; booleans are kept as 0 and 1,
    the values they take in the products of line 250 *)
Definition sample_agent (n i : nat) (pol_action : vec) (g : RandomState)
  : result ((vec * vec) * RandomState) :=
  let invite_pref := firstn n pol_action in
  let accept_pref := skipn n pol_action in
  let invite_prob := softmax invite_pref in
  let accept_prob := map sigmoid accept_pref in
  rbind (choice n invite_prob g) (fun cg =>
  let invite := one_hot (fst cg) n in
  let '(u, g2) := uniform n (snd cg) in
  rbind (broadcast_to n accept_prob) (fun prob =>
  let accept := map2 (fun x p => if Rlt_dec x p then 1 else 0) u prob in
  Ok ((set_nth i invite 0, set_nth i accept 0), g2))).

Fixpoint sample_agents (n : nat) (ipol : list (nat * vec)) (g : RandomState)
  : result ((matrix * matrix) * RandomState) :=
  match ipol with
  | [] => Ok (([], []), g)
  | (i, pol_action) :: rest =>
      rbind (sample_agent n i pol_action g) (fun r1 =>
      rbind (sample_agents n rest (snd r1)) (fun r2 =>
      Ok ((fst (fst r1) :: fst (fst r2), snd (fst r1) :: snd (fst r2)),
          snd r2)))
  end.

(** line 250 *)
Definition affinity_delta (invites accepts : matrix) : matrix :=
  mmap (Rmult (delta * 0.5))
       (mmap2 Rplus (mmap2 Rmult (transpose accepts) invites)
                    (mmap2 Rmult (transpose invites) accepts)).

Definition set_affinity (st : Env) (aff dlt : matrix) : Env :=
  mkEnv (render_mode st) (agents st) (t st)
        (prev_gdp st) (gdp st) (GDP st) (one_plus_gdp_growth_rate st)
        (prev_price_lvl st) (price_lvl st) (one_plus_inf_rate st)
        (PREV_NET_EX st) (NET_EX st)
        (eco_observation st) aff dlt
        (one_plus_int_rate st) (total_demand st) (nom_exchange_rate st)
        (real_exchange_rate st) (FOR_EXP st) (TRADE_COEFF st) (EX st)
        (TRADE_COEFF_STAR st) (EX_STAR st) (IM st) (eco_reward st).

Definition set_agents_t (st : Env) (agents' : list string) (t' : nat) : Env :=
  mkEnv (render_mode st) agents' t'
        (prev_gdp st) (gdp st) (GDP st) (one_plus_gdp_growth_rate st)
        (prev_price_lvl st) (price_lvl st) (one_plus_inf_rate st)
        (PREV_NET_EX st) (NET_EX st)
        (eco_observation st) (affinity st) (delta_affinity st)
        (one_plus_int_rate st) (total_demand st) (nom_exchange_rate st)
        (real_exchange_rate st) (FOR_EXP st) (TRADE_COEFF st) (EX st)
        (TRADE_COEFF_STAR st) (EX_STAR st) (IM st) (eco_reward st).

(** ** [step] *)

(** [all(d.values())] *)
Definition all_values (d : list (string * bool)) : bool :=
  forallb (fun kv => snd kv) d.

Definition vec_eq_dec : forall a b : vec, {a = b} + {a <> b} :=
  list_eq_dec Req_dec_T.

Definition step (st : Env) (actions : list (string * Action))
  (g : RandomState) : result ((Env * StepOut) * RandomState) :=
  rbind (gather (agents st) actions) (fun acts =>
  let eco_actions := map eco acts in
  let pol_actions := map pol acts in
  (* shapes (len(agents),) and (N,) must agree in line 195 *)
  if negb (Nat.eqb (length eco_actions) (length (gdp st))) then Raise ValueError
  else
  let st1 := economy st eco_actions in
  (* line 214 *)
  if vec_eq_dec (EX st1) (EX_STAR st1) then
    rbind (sample_agents (num_agents (agents st)) (enumerate pol_actions) g)
      (fun r =>
    let invites := fst (fst r) in
    let accepts := snd (fst r) in
    let dlt := affinity_delta invites accepts in
    let st2 := set_affinity st1 (mmap2 Rplus (affinity st1) dlt) dlt in
    let obs := build_observations (agents st2) (eco_observation st2)
                 (affinity st2) in
    let rew := combine (agents st2) (matvec (affinity st2) (eco_reward st2)) in
    let infos1 := map (fun a => (a, @nil (string * R))) (agents st2) in
    let st3 := set_agents_t st2 (agents st2) (t st2 + 1) in
    rbind (render (render_mode st3)) (fun _ =>
    let over := Nat.leb 100 (t st3) in
    let truncs := map (fun a => (a, over)) (agents st3) in
    let terms := map (fun a => (a, over)) (agents st3) in
    let st4 :=
      if all_values terms || all_values truncs
      then set_agents_t st3 [] (t st3) else st3 in
    Ok ((st4, mkStepOut obs rew terms truncs infos1), snd r)))
  else Raise AssertionError).

(** ** Episodes: [reset] followed by a sequence of [step] calls *)

Fixpoint steps (st : Env) (acts : list (list (string * Action)))
  (g : RandomState) : result ((Env * list StepOut) * RandomState) :=
  match acts with
  | [] => Ok ((st, []), g)
  | a :: acts' =>
      rbind (step st a g) (fun r1 =>
      rbind (steps (fst (fst r1)) acts' (snd r1)) (fun r2 =>
      Ok ((fst (fst r2), snd (fst r1) :: snd (fst r2)), snd r2)))
  end.

Definition episode (mode : option string) (seed : option nat)
  (g : RandomState) (acts : list (list (string * Action))) :=
  let r0 := reset mode seed g in
  (fst (fst r0), steps (snd (fst r0)) acts (snd r0)).

(** states an environment object goes through: after [reset], and after
    every [step] that returns *)
Inductive reachable : Env -> Prop :=
| reach_reset mode seed g :
    reachable (snd (fst (reset mode seed g)))
| reach_step st actions g st' out g' :
    reachable st ->
    step st actions g = Ok ((st', out), g') ->
    reachable st'.

(** ** Shapes *)

Definition shape (n m : nat) (M : matrix) : Prop :=
  length M = n /\ Forall (fun r => length r = m) M.

(** every agent has an action, with ['pol'] of shape (2 N,) *)
Definition valid_actions (actions : list (string * Action)) : Prop :=
  exists acts, gather possible_agents actions = Ok acts /\
    Forall (fun a => length (pol a) = (2 * N)%nat) acts.

Definition supported (mode : option string) : Prop :=
  mode = Some "human"%string \/ mode = Some "array"%string.

(** entry [(i, j)] of a 2-D array *)
Definition entry (M : matrix) (i j : nat) : R := nth j (nth i M []) 0.

(** [sum of f j for j < n] *)
Definition big_sum (n : nat) (f : nat -> R) : R := Rsum (map f (seq 0 n)).

(** ** Concrete inputs *)

(** a generator that delivers zeros *)
Definition zero_gen : RandomState := mkRandomState (fun _ => 0) (fun _ => 0).

(** a generator that delivers ones from [randn] *)
Definition one_gen : RandomState := mkRandomState (fun _ => 1) (fun _ => 0).

(** every agent plays the zero action *)
Definition zero_actions : list (string * Action) :=
  map (fun a => (a, mkAction 0 (repeat 0 (2 * N)))) possible_agents.

Definition env0 : Env := snd (fst (reset (Some "human"%string) None zero_gen)).

(** the economic reward as the specification words it: the squared term
    is [exp(inflation) - target_inflation] *)
Definition claimed_eco_reward (growth inflation : R) : R :=
  (exp growth - 1) - kappa * Rsqr (exp inflation - inf_target).

(** the logistic function [1 / (1 + exp(-x))] *)
Definition logistic (x : R) : R := 1 / (1 + exp (- x)).

(** what [sample_agent] leaves in row [i] of [invites] and [accepts] *)
Definition row_ok (n : nat) (ip : nat * vec) (row : vec) : Prop :=
  length row = n /\ Forall (Rle 0) row /\
  ((fst ip < n)%nat -> nth (fst ip) row 0 = 0).

(** what lines 244-249 guarantee about [invites] and [accepts] *)
Record drawn (n : nat) (M : matrix) : Prop := mkDrawn {
  drawn_shape : shape n n M;
  drawn_nonneg : forall i j, (i < n)%nat -> (j < n)%nat -> 0 <= entry M i j;
  drawn_diag : forall i, (i < n)%nat -> entry M i i = 0
}.

(** the shapes every environment object keeps, running or finished *)
Record shaped (st : Env) : Prop := mkShaped {
  sh_gdp : length (gdp st) = N;
  sh_growth : length (one_plus_gdp_growth_rate st) = N;
  sh_price : length (price_lvl st) = N;
  sh_inf : length (one_plus_inf_rate st) = N;
  sh_eco : eco_observation st
           = transpose [gdp st; one_plus_gdp_growth_rate st;
                        price_lvl st; one_plus_inf_rate st];
  sh_affinity : shape N N (affinity st);
  sh_agents : agents st = possible_agents \/ agents st = []
}.

(** an environment between [reset] and the end of its episode *)
Definition running (st : Env) : Prop :=
  shaped st /\ agents st = possible_agents.

(** a state together with the observations returned when it was reached *)
Inductive returned_with : Env -> list (string * vec) -> Prop :=
| ret_reset mode seed g :
    returned_with (snd (fst (reset mode seed g)))
                  (fst (fst (fst (reset mode seed g))))
| ret_step st actions g st' out g' :
    reachable st ->
    step st actions g = Ok ((st', out), g') ->
    returned_with st' (observations out).

(** the flags of a [terminations] or [truncations] dictionary *)
Definition all_flags (b : bool) : list (string * bool) :=
  map (fun a => (a, b)) possible_agents.

Definition quiet (out : StepOut) : Prop :=
  terminations out = all_flags false /\ truncations out = all_flags false.



(** the observations returned by [reset] from the zero generator *)
Definition obs0 : list (string * vec) :=
  fst (fst (fst (reset (Some "human"%string) None zero_gen))).

(** ** Spaces and accessors (lines 14-16 and 74-83) *)

(** shape of [obs_space]: one flat vector of [(N + 4) * N] reals *)
Definition obs_space_shape : nat := ((N + 4) * N)%nat.

(** shapes of the two entries of [act_space] *)
Definition act_space_eco_shape : nat := 1%nat.
Definition act_space_pol_shape : nat := (2 * N)%nat.

(** [observation_space(agent)] and [action_space(agent)]: the same
    descriptor for every agent *)
Definition observation_space (agent : string) : nat := obs_space_shape.
Definition action_space (agent : string) : nat * nat :=
  (act_space_eco_shape, act_space_pol_shape).

(** [get_agent_ids] *)
Definition get_agent_ids (st : Env) : list string := agents st.


(** the entries a 0/1 array can hold *)
Definition zero_or_one (x : R) : Prop := x = 0 \/ x = 1.

(** a dictionary of actions in which ["agent_0"] is missing *)
Definition actions_without_agent_0 : list (string * Action) :=
  tl zero_actions.

(** ** [_render_human_readable] (lines 93-147)

    What [render(mode='human')] returns: [None] at [t = 0], otherwise the
    dictionary [render_res] of lines 136-146.  The printing is left out. *)



(** ** Line 194 in binary64

    With Python floats or float64 arrays as actions numpy evaluates
    [0.20 / (1 + np.exp(-a))] in binary64: every operation returns the
    representable number nearest to the exact result (ties to even), or
    [inf] when that number exceeds the largest finite one.  [np.exp] is
    taken as correctly rounded. *)

Definition bpow (e : Z) : R := powerRZ 2 e.

(** the nearest integer, ties to even *)
Definition Znearest (x : R) : Z :=
  let f := Zfloor x in
  if Rlt_dec (x - IZR f) (/ 2) then f
  else if Rlt_dec (/ 2) (x - IZR f) then (f + 1)%Z
  else if Z.even f then f else (f + 1)%Z.

(** [floor (log2 |x|)] *)
Definition mag2 (x : R) : Z := Zfloor (ln (Rabs x) / ln 2).

(** exponent of the last place of a binary64 number near [x]: 53
    significant bits, subnormal numbers from [2^-1074] *)
Definition fexp64 (x : R) : Z := Z.max (mag2 x - 52) (-1074).

(** round to nearest, ties to even, exponent unbounded above *)
Definition round64 (x : R) : R :=
  if Req_dec_T x 0 then 0
  else IZR (Znearest (x * bpow (- fexp64 x))) * bpow (fexp64 x).

(** the largest finite binary64 number *)
Definition max_f64 : R := IZR (2 ^ 53 - 1) * bpow 971.

(** the values line 194 goes through: finite numbers and [+inf] *)
Inductive f64 : Type :=
| Finite (x : R)
| PInf.

Definition overflow64 (x : R) : f64 :=
  if Rlt_dec max_f64 (round64 x) then PInf else Finite (round64 x).

(** [np.exp] on a float64 *)
Definition np_exp (x : R) : f64 := overflow64 (exp x).

(** the literal [0.20] *)
Definition c020 : R := round64 0.20.

(** line 194 in binary64; [1 + inf] is [inf] and [0.20 / inf] is [0.0] *)
Definition int_rate_f64 (a : R) : R :=
  match np_exp (- a) with
  | PInf => 0
  | Finite e => round64 (c020 / round64 (1 + e))
  end.

(** ** Actions of moderate size

    Well-formed actions whose political preferences stay within
    [[-700, 700]]: [np.exp] of such a preference neither overflows nor
    underflows to zero in binary64, so the probabilities of line 238 are
    finite and [np.random.choice] accepts them. *)



(** * Properties *)

(** ** Real-number facts behind lines 194, 228 and 234 *)

Lemma exp_sum_pos (x : R) : 0 < 1 + exp x.
Proof. pose proof (exp_pos x); lra. Qed.



Lemma sigmoid_decreasing (x y : R) : x < y -> sigmoid y < sigmoid x.
Proof.
  intros Hxy. unfold sigmoid, Rdiv. rewrite !Rmult_1_l.
  apply Rinv_lt_contravar.
  - apply Rmult_lt_0_compat; apply exp_sum_pos.
  - apply Rplus_lt_compat_l, exp_increasing, Hxy.
Qed.

Lemma sigmoid_is_logistic_of_opp (x : R) : sigmoid x = logistic (- x).
Proof. unfold sigmoid, logistic. now rewrite Ropp_involutive. Qed.

Lemma logistic_increasing (x y : R) : x < y -> logistic x < logistic y.
Proof.
  intros Hxy. rewrite <- (Ropp_involutive x), <- (Ropp_involutive y).
  rewrite <- !sigmoid_is_logistic_of_opp. apply sigmoid_decreasing. lra.
Qed.

(** ** Lists, rows and shapes *)

Section ListFacts.
Variables A B C : Type.

Lemma map2_length (f : A -> B -> C) xs ys :
  length (map2 f xs ys) = Nat.min (length xs) (length ys).
Proof.
  revert ys; induction xs as [|x xs IH]; intros [|y ys]; simpl; auto.
Qed.

Lemma map2_nth (f : A -> B -> C) xs ys da db dc i :
  (i < length xs)%nat -> (i < length ys)%nat ->
  nth i (map2 f xs ys) dc = f (nth i xs da) (nth i ys db).
Proof.
  revert ys i; induction xs as [|x xs IH]; intros [|y ys] [|i]; simpl;
    intros; try lia; auto.
  apply IH; lia.
Qed.

Lemma nth_map_seq (f : nat -> A) n i d :
  (i < n)%nat -> nth i (map f (seq 0 n)) d = f i.
Proof.
  intros Hi. rewrite (nth_indep _ d (f 0%nat)) by now rewrite length_map, length_seq.
  rewrite map_nth, seq_nth by assumption. reflexivity.
Qed.

Lemma nth_map_in (f : A -> B) xs i da db :
  (i < length xs)%nat -> nth i (map f xs) db = f (nth i xs da).
Proof.
  intros Hi. rewrite (nth_indep _ db (f da)) by now rewrite length_map.
  apply map_nth.
Qed.

Lemma set_nth_length i (xs : list A) v : length (set_nth i xs v) = length xs.
Proof.
  revert i; induction xs as [|x xs IH]; intros [|i]; simpl; auto.
Qed.

Lemma set_nth_same i (xs : list A) v d :
  (i < length xs)%nat -> nth i (set_nth i xs v) d = v.
Proof.
  revert i; induction xs as [|x xs IH]; intros [|i]; simpl; intros; try lia; auto.
  apply IH; lia.
Qed.

Lemma set_nth_other i j (xs : list A) v d :
  i <> j -> nth j (set_nth i xs v) d = nth j xs d.
Proof.
  revert i j; induction xs as [|x xs IH]; intros [|i] [|j]; simpl; intros;
    try congruence; auto.
Qed.

Lemma enumerate_length (xs : list A) : length (enumerate xs) = length xs.
Proof.
  unfold enumerate. rewrite length_combine, length_seq. apply Nat.min_id.
Qed.

Lemma enumerate_nth (xs : list A) i d :
  (i < length xs)%nat -> nth i (enumerate xs) (0%nat, d) = (i, nth i xs d).
Proof.
  intros Hi. unfold enumerate.
  rewrite combine_nth by now rewrite length_seq.
  now rewrite seq_nth.
Qed.

End ListFacts.

Lemma map_enumerate_nth (A B : Type) (f : nat * A -> B) (xs : list A) i da db :
  (i < length xs)%nat ->
  nth i (map f (enumerate xs)) db = f (i, nth i xs da).
Proof.
  intros Hi.
  rewrite (nth_map_in f (enumerate xs) (0%nat, da) db)
    by now rewrite enumerate_length.
  now rewrite enumerate_nth.
Qed.

Lemma shape_row n m M i : shape n m M -> (i < n)%nat -> length (nth i M []) = m.
Proof.
  intros [Hn Hr] Hi. rewrite Forall_forall in Hr.
  apply Hr, nth_In. lia.
Qed.

Lemma shape_intro n m (M : matrix) :
  length M = n -> (forall i, (i < n)%nat -> length (nth i M []) = m) ->
  shape n m M.
Proof.
  intros Hn Hr. split; [assumption|].
  apply Forall_forall. intros r Hin.
  destruct (In_nth _ _ [] Hin) as (i & Hi & <-). apply Hr. lia.
Qed.

(** two arrays of one shape with the same entries are the same array *)
Lemma matrix_ext n m (P Q : matrix) :
  shape n m P -> shape n m Q ->
  (forall i j, (i < n)%nat -> (j < m)%nat -> entry P i j = entry Q i j) ->
  P = Q.
Proof.
  intros HP HQ He.
  apply (nth_ext P Q [] []).
  - destruct HP, HQ; congruence.
  - intros i Hi. destruct HP as [HPn HPr] eqn:E. clear E.
    assert (Hi' : (i < n)%nat) by lia.
    apply (nth_ext _ _ 0 0).
    + rewrite (shape_row HP Hi'), (shape_row HQ Hi'). reflexivity.
    + intros j Hj. rewrite (shape_row HP Hi') in Hj. now apply He.
Qed.

Lemma width_shape n m M : shape n m M -> (0 < n)%nat -> width M = m.
Proof.
  intros [Hn Hr] Hpos. destruct M as [|r M]; simpl in *; [lia|].
  now inversion Hr.
Qed.

Lemma transpose_shape n m M :
  shape n m M -> (0 < n)%nat -> shape m n (transpose M).
Proof.
  intros HM Hpos. unfold transpose. rewrite (width_shape HM Hpos).
  apply shape_intro.
  - now rewrite length_map, length_seq.
  - intros j Hj. rewrite nth_map_seq by assumption.
    unfold col. rewrite length_map. apply HM.
Qed.

Lemma transpose_entry n m M i j :
  shape n m M -> (i < n)%nat -> (j < m)%nat ->
  entry (transpose M) j i = entry M i j.
Proof.
  intros HM Hi Hj. unfold entry, transpose.
  rewrite (width_shape HM) by lia.
  rewrite nth_map_seq by assumption. unfold col.
  rewrite (nth_map_in (fun r => nth j r 0) M [] 0) by (destruct HM; lia).
  reflexivity.
Qed.

Lemma transpose_involutive n m M :
  shape n m M -> (0 < n)%nat -> (0 < m)%nat -> transpose (transpose M) = M.
Proof.
  intros HM Hn Hm.
  apply (@matrix_ext n m); auto.
  - apply transpose_shape; auto. apply transpose_shape; auto.
  - intros i j Hi Hj.
    rewrite (transpose_entry (transpose_shape HM Hn) Hj Hi).
    now rewrite (transpose_entry HM Hi Hj).
Qed.

Lemma mmap_shape n m f M : shape n m M -> shape n m (mmap f M).
Proof.
  intros [Hn Hr]. split; unfold mmap.
  - now rewrite length_map.
  - apply Forall_map. revert Hr. apply Forall_impl. intros r Hl.
    now rewrite length_map.
Qed.

Lemma mmap_entry n m f M i j :
  shape n m M -> (i < n)%nat -> (j < m)%nat ->
  entry (mmap f M) i j = f (entry M i j).
Proof.
  intros HM Hi Hj. unfold entry, mmap.
  rewrite (nth_map_in (map f) M [] []) by (destruct HM; lia).
  rewrite (nth_map_in f _ 0 0) by now rewrite (shape_row HM Hi).
  reflexivity.
Qed.

Lemma mmap2_shape n m f P Q :
  shape n m P -> shape n m Q -> shape n m (mmap2 f P Q).
Proof.
  intros HP HQ. unfold mmap2. apply shape_intro.
  - rewrite map2_length. destruct HP, HQ. lia.
  - intros i Hi.
    rewrite (map2_nth (map2 f) P Q [] [] []) by (destruct HP, HQ; lia).
    rewrite map2_length, (shape_row HP Hi), (shape_row HQ Hi). lia.
Qed.

Lemma mmap2_entry n m f P Q i j :
  shape n m P -> shape n m Q -> (i < n)%nat -> (j < m)%nat ->
  entry (mmap2 f P Q) i j = f (entry P i j) (entry Q i j).
Proof.
  intros HP HQ Hi Hj. unfold entry, mmap2.
  rewrite (map2_nth (map2 f) P Q [] [] []) by (destruct HP, HQ; lia).
  apply map2_nth.
  - now rewrite (shape_row HP Hi).
  - now rewrite (shape_row HQ Hi).
Qed.

Lemma fill_diagonal_shape n m M v : shape n m M -> shape n m (fill_diagonal M v).
Proof.
  intros HM. unfold fill_diagonal. apply shape_intro.
  - rewrite length_map, enumerate_length. apply HM.
  - intros i Hi.
    rewrite (map_enumerate_nth _ M [] []) by (destruct HM; lia).
    simpl. rewrite set_nth_length. now apply (shape_row HM).
Qed.

Lemma fill_diagonal_entry n m M v i j :
  shape n m M -> (i < n)%nat -> (j < m)%nat ->
  entry (fill_diagonal M v) i j = if Nat.eqb i j then v else entry M i j.
Proof.
  intros HM Hi Hj. unfold entry, fill_diagonal.
  rewrite (map_enumerate_nth _ M [] []) by (destruct HM; lia).
  simpl. destruct (Nat.eqb_spec i j) as [->|Hne].
  - apply set_nth_same. now rewrite (shape_row HM Hi).
  - now apply set_nth_other.
Qed.

Lemma outer_sub_shape a b : shape (length a) (length b) (outer_sub a b).
Proof.
  unfold outer_sub. split.
  - now rewrite length_map.
  - apply Forall_map, Forall_forall. intros x _. now rewrite length_map.
Qed.

Lemma div_by_row_shape n m M d :
  shape n m M -> length d = m -> shape n m (div_by_row M d).
Proof.
  intros [Hn Hr] Hd. unfold div_by_row. split.
  - now rewrite length_map.
  - apply Forall_map. revert Hr. apply Forall_impl. intros r Hl.
    rewrite map2_length. lia.
Qed.

Lemma div_by_row_entry n m M d i j :
  shape n m M -> length d = m -> (i < n)%nat -> (j < m)%nat ->
  entry (div_by_row M d) i j = entry M i j / nth j d 0.
Proof.
  intros HM Hd Hi Hj. unfold entry, div_by_row.
  rewrite (nth_map_in (fun r => map2 Rdiv r d) M [] []) by (destruct HM; lia).
  apply map2_nth; [now rewrite (shape_row HM Hi) | lia].
Qed.

Lemma div_by_col_shape n m M d :
  shape n m M -> length d = n -> shape n m (div_by_col M d).
Proof.
  intros HM Hd. unfold div_by_col. apply shape_intro.
  - rewrite map2_length. destruct HM. lia.
  - intros i Hi.
    rewrite (map2_nth (fun r di => map (fun x => x / di) r) M d [] 0 [])
      by (destruct HM; lia).
    rewrite length_map. now apply (shape_row HM).
Qed.

Lemma div_by_col_entry n m M d i j :
  shape n m M -> length d = n -> (i < n)%nat -> (j < m)%nat ->
  entry (div_by_col M d) i j = entry M i j / nth i d 0.
Proof.
  intros HM Hd Hi Hj. unfold entry, div_by_col.
  rewrite (map2_nth (fun r di => map (fun x => x / di) r) M d [] 0 [])
    by (destruct HM; lia).
  rewrite (nth_map_in (fun x => x / nth i d 0) _ 0 0)
    by now rewrite (shape_row HM Hi).
  reflexivity.
Qed.

(** ** The two orientations of the trade coefficients (lines 202-213) *)

Lemma trade_coeff_shape n real :
  shape n n real -> (0 < n)%nat -> shape n n (trade_coeff real).
Proof.
  intros Hs Hn. unfold trade_coeff.
  pose proof (mmap_shape exp Hs) as HE.
  apply div_by_row_shape.
  - now apply transpose_shape.
  - unfold sum_axis0. rewrite length_map.
    apply (transpose_shape (transpose_shape HE Hn) Hn).
Qed.

Lemma trade_coeff_star_shape n real :
  shape n n real -> shape n n (trade_coeff_star real).
Proof.
  intros Hs. unfold trade_coeff_star.
  pose proof (mmap_shape exp Hs) as HE.
  apply div_by_col_shape; [assumption|].
  unfold sum_axis1. rewrite length_map. apply HE.
Qed.

(** the column totals of [NUM] are the row totals of [NUM_STAR] *)
Lemma den_is_den_star n real :
  shape n n real -> (0 < n)%nat ->
  sum_axis0 (transpose (mmap exp real)) = sum_axis1 (mmap exp real).
Proof.
  intros Hs Hn. unfold sum_axis0, sum_axis1.
  now rewrite (transpose_involutive (mmap_shape exp Hs) Hn Hn).
Qed.

Lemma trade_coeff_entry n real i j :
  shape n n real -> (i < n)%nat -> (j < n)%nat ->
  entry (trade_coeff real) i j = entry (trade_coeff_star real) j i.
Proof.
  intros Hs Hi Hj.
  assert (Hn : (0 < n)%nat) by lia.
  pose proof (mmap_shape exp Hs) as HE.
  unfold trade_coeff, trade_coeff_star.
  rewrite (den_is_den_star Hs Hn).
  assert (Hd : length (sum_axis1 (mmap exp real)) = n)
    by (unfold sum_axis1; rewrite length_map; apply HE).
  rewrite (div_by_row_entry _ (transpose_shape HE Hn) Hd Hi Hj).
  rewrite (div_by_col_entry _ HE Hd Hj Hi).
  now rewrite (transpose_entry HE Hj Hi).
Qed.

Lemma trade_orientations n real :
  shape n n real ->
  transpose (fill_diagonal (trade_coeff real) 0)
  = fill_diagonal (trade_coeff_star real) 0.
Proof.
  intros Hs. destruct n as [|n'].
  - destruct Hs as [Hl _]. apply length_zero_iff_nil in Hl. subst real.
    reflexivity.
  - set (n := S n') in *. assert (Hn : (0 < n)%nat) by (unfold n; lia).
    pose proof (fill_diagonal_shape 0 (trade_coeff_shape Hs Hn)) as HT.
    pose proof (fill_diagonal_shape 0 (trade_coeff_star_shape Hs)) as HT'.
    apply (@matrix_ext n n).
    + now apply transpose_shape.
    + assumption.
    + intros i j Hi Hj.
      rewrite (transpose_entry HT Hj Hi).
      rewrite (fill_diagonal_entry 0 (trade_coeff_shape Hs Hn) Hj Hi).
      rewrite (fill_diagonal_entry 0 (trade_coeff_star_shape Hs) Hi Hj).
      rewrite Nat.eqb_sym. destruct (Nat.eqb i j); [reflexivity|].
      apply (trade_coeff_entry Hs Hj Hi).
Qed.

Lemma real_exchange_rate_shape st eco_actions :
  shape (length eco_actions) (length eco_actions)
        (real_exchange_rate (economy st eco_actions)).
Proof.
  simpl. apply mmap_shape.
  pose proof (outer_sub_shape (map int_rate eco_actions) (map int_rate eco_actions)) as H.
  now rewrite length_map in H.
Qed.

Lemma exports_agree (real : matrix) (for_exp : vec) n :
  shape n n real -> exports real for_exp = exports_star real for_exp.
Proof.
  intros Hs. unfold exports, exports_star.
  now rewrite (trade_orientations Hs).
Qed.

Lemma economy_exports_agree st eco_actions :
  EX (economy st eco_actions) = EX_STAR (economy st eco_actions).
Proof.
  pose proof (real_exchange_rate_shape st eco_actions) as Hs.
  cbn [real_exchange_rate EX EX_STAR economy] in *.
  exact (exports_agree _ Hs).
Qed.

(** C3. In every [step], the exports computed from the column-normalised
    coefficients ([TEMP.T @ FOR_EXP], line 207) and from the row-normalised
    ones ([TEMP_STAR @ FOR_EXP], line 213) are the same array, whatever
    the state and the economic actions: the assertion of line 214 holds. *)
Theorem C3_exports_orientations_agree (st : Env) (eco_actions : vec) :
  EX (economy st eco_actions) = EX_STAR (economy st eco_actions).
Proof.
  pose proof (real_exchange_rate_shape st eco_actions) as Hs.
  simpl in *. unfold exports, exports_star.
  now rewrite (trade_orientations Hs).
Qed.

(** ** Inversion of a [step] that returns *)

Lemma all_values_const (keys : list string) (b : bool) :
  all_values (map (fun a => (a, b)) keys) = b || match keys with [] => true | _ => false end.
Proof.
  unfold all_values. induction keys as [|k keys IH]; simpl.
  - now rewrite orb_true_r.
  - rewrite IH. destruct b, keys; reflexivity.
Qed.

Lemma render_ok mode : render mode = Ok tt <-> supported mode.
Proof.
  unfold render, supported. split.
  - destruct mode as [m|]; [|discriminate].
    destruct (String.eqb_spec m "human"); [subst; auto|].
    destruct (String.eqb_spec m "array"); [subst; auto|]. discriminate.
  - intros [-> | ->]; reflexivity.
Qed.

(** projections of the record updates *)
Lemma t_set_agents_t st a n : t (set_agents_t st a n) = n.
Proof. reflexivity. Qed.
Lemma agents_set_agents_t st a n : agents (set_agents_t st a n) = a.
Proof. reflexivity. Qed.
Lemma render_mode_set_agents_t st a n :
  render_mode (set_agents_t st a n) = render_mode st.
Proof. reflexivity. Qed.
Lemma t_set_affinity st a d : t (set_affinity st a d) = t st.
Proof. reflexivity. Qed.
Lemma agents_set_affinity st a d : agents (set_affinity st a d) = agents st.
Proof. reflexivity. Qed.
Lemma render_mode_set_affinity st a d :
  render_mode (set_affinity st a d) = render_mode st.
Proof. reflexivity. Qed.
Lemma affinity_set_affinity st a d : affinity (set_affinity st a d) = a.
Proof. reflexivity. Qed.
Lemma eco_observation_set_affinity st a d :
  eco_observation (set_affinity st a d) = eco_observation st.
Proof. reflexivity. Qed.
Lemma eco_reward_set_affinity st a d :
  eco_reward (set_affinity st a d) = eco_reward st.
Proof. reflexivity. Qed.
Lemma t_economy st x : t (economy st x) = t st.
Proof. reflexivity. Qed.
Lemma agents_economy st x : agents (economy st x) = agents st.
Proof. reflexivity. Qed.
Lemma render_mode_economy st x : render_mode (economy st x) = render_mode st.
Proof. reflexivity. Qed.
Lemma affinity_economy st x : affinity (economy st x) = affinity st.
Proof. reflexivity. Qed.

Ltac env_proj_in H :=
  rewrite ?t_set_agents_t, ?agents_set_agents_t, ?render_mode_set_agents_t,
    ?t_set_affinity, ?agents_set_affinity, ?render_mode_set_affinity,
    ?affinity_set_affinity, ?eco_observation_set_affinity,
    ?eco_reward_set_affinity, ?t_economy, ?agents_economy,
    ?render_mode_economy, ?affinity_economy in H.

Lemma step_inv st actions g st' out g' :
  step st actions g = Ok ((st', out), g') ->
  exists acts invites accepts,
    gather (agents st) actions = Ok acts /\
    length acts = length (gdp st) /\
    sample_agents (length (agents st)) (enumerate (map pol acts)) g
      = Ok ((invites, accepts), g') /\
    supported (render_mode st) /\
    let st1 := economy st (map eco acts) in
    let dlt := affinity_delta invites accepts in
    let aff := mmap2 Rplus (affinity st) dlt in
    let over := Nat.leb 100 (t st + 1) in
    st' = set_agents_t (set_affinity st1 aff dlt)
            (if over then [] else agents st) (t st + 1) /\
    out = mkStepOut
            (build_observations (agents st) (eco_observation st1) aff)
            (combine (agents st) (matvec aff (eco_reward st1)))
            (map (fun a => (a, over)) (agents st))
            (map (fun a => (a, over)) (agents st))
            (map (fun a => (a, @nil (string * R))) (agents st)).
Proof.
  unfold step. intros H.
  destruct (gather (agents st) actions) as [acts|] eqn:Hg; [|discriminate].
  cbn [rbind] in H.
  destruct (Nat.eqb (length (map eco acts)) (length (gdp st))) eqn:Hlen;
    [|discriminate]. cbn [negb] in H.
  destruct (vec_eq_dec _ _) as [_|]; [|discriminate].
  unfold num_agents in H.
  destruct (sample_agents _ _ g) as [[[invites accepts] g1]|] eqn:Hs;
    [|discriminate]. cbn [rbind fst snd] in H.
  env_proj_in H.
  destruct (render (render_mode st)) as [[]|] eqn:Hr; [|discriminate].
  cbn [rbind] in H. rewrite !all_values_const in H.
  exists acts, invites, accepts.
  apply Nat.eqb_eq in Hlen. rewrite length_map in Hlen.
  apply render_ok in Hr.
  assert (Hst : (if Nat.leb 100 (t st + 1)
                    || match agents st with [] => true | _ => false end
                    || (Nat.leb 100 (t st + 1)
                        || match agents st with [] => true | _ => false end)
                 then set_agents_t
                        (set_agents_t
                           (set_affinity (economy st (map eco acts))
                              (mmap2 Rplus (affinity st)
                                 (affinity_delta invites accepts))
                              (affinity_delta invites accepts))
                           (agents st) (t st + 1)) [] (t st + 1)
                 else set_agents_t
                        (set_affinity (economy st (map eco acts))
                           (mmap2 Rplus (affinity st)
                              (affinity_delta invites accepts))
                           (affinity_delta invites accepts))
                        (agents st) (t st + 1))
                = set_agents_t
                    (set_affinity (economy st (map eco acts))
                       (mmap2 Rplus (affinity st)
                          (affinity_delta invites accepts))
                       (affinity_delta invites accepts))
                    (if Nat.leb 100 (t st + 1) then [] else agents st)
                    (t st + 1)).
  { destruct (Nat.leb 100 (t st + 1)); [reflexivity|].
    destruct (agents st); reflexivity. }
  rewrite Hst in H. inversion H; subst.
  repeat split; auto.
Qed.

(** ** The rows drawn by the diplomatic loop (lines 235-247) *)

Lemma Forall_set_nth (A : Type) (P : A -> Prop) i (xs : list A) v :
  Forall P xs -> P v -> Forall P (set_nth i xs v).
Proof.
  intros Hxs Hv. revert i.
  induction Hxs as [|x xs Hx Hrest IH]; intros [|i]; simpl; auto.
Qed.

Lemma Forall2_nth_both (A B : Type) (P : A -> B -> Prop) l l' i d d' :
  Forall2 P l l' -> (i < length l)%nat -> P (nth i l d) (nth i l' d').
Proof.
  intros H. revert i. induction H as [|x y l l' Hxy _ IH]; intros [|i] Hi;
    simpl in *; try lia; auto.
  apply IH. lia.
Qed.

Lemma one_hot_nonneg c n : Forall (Rle 0) (one_hot c n).
Proof.
  unfold one_hot. apply Forall_map, Forall_forall. intros k _.
  destruct (Nat.eqb k c); lra.
Qed.

Lemma accept_nonneg u prob :
  Forall (Rle 0) (map2 (fun x p => if Rlt_dec x p then 1 else 0) u prob).
Proof.
  revert prob. induction u as [|x u IH]; intros [|p prob]; simpl; auto.
  constructor; [destruct (Rlt_dec x p); lra | apply IH].
Qed.

Lemma broadcast_to_length n v w : broadcast_to n v = Ok w -> length w = n.
Proof.
  unfold broadcast_to. destruct (Nat.eqb_spec (length v) n) as [E|_].
  - intros H; inversion H; congruence.
  - destruct v as [|x [|y v]]; try discriminate.
    intros H; inversion H. apply repeat_length.
Qed.

Lemma sample_agent_rows n i pa g inv acc g' :
  sample_agent n i pa g = Ok ((inv, acc), g') ->
  row_ok n (i, pa) inv /\ row_ok n (i, pa) acc.
Proof.
  unfold sample_agent.
  destruct (choice n (softmax (firstn n pa)) g) as [[c g1]|]; [|discriminate].
  cbn [rbind fst snd uniform].
  destruct (broadcast_to n (map sigmoid (skipn n pa))) as [prob|] eqn:Hb;
    [|discriminate].
  cbn [rbind]. intros H; inversion H; subst; clear H.
  apply broadcast_to_length in Hb.
  assert (Hinv : length (one_hot c n) = n)
    by (unfold one_hot; now rewrite length_map, length_seq).
  assert (Hacc : length (map2 (fun x p => if Rlt_dec x p then 1 else 0)
                           (map (unif g1) (seq 0 n)) prob) = n)
    by (rewrite map2_length, length_map, length_seq, Hb; apply Nat.min_id).
  unfold row_ok; cbn [fst]. repeat split.
  - now rewrite set_nth_length.
  - apply Forall_set_nth; [apply one_hot_nonneg | lra].
  - intros Hi. apply set_nth_same. now rewrite Hinv.
  - now rewrite set_nth_length.
  - apply Forall_set_nth; [apply accept_nonneg | lra].
  - intros Hi. apply set_nth_same. now rewrite Hacc.
Qed.

Lemma sample_agents_rows n ipol g invites accepts g' :
  sample_agents n ipol g = Ok ((invites, accepts), g') ->
  Forall2 (row_ok n) ipol invites /\ Forall2 (row_ok n) ipol accepts.
Proof.
  revert g invites accepts g'.
  induction ipol as [|[i pa] rest IH]; intros g invites accepts g'; simpl.
  - intros H; inversion H; subst. split; constructor.
  - destruct (sample_agent n i pa g) as [[[inv acc] g1]|] eqn:H1;
      [|discriminate]. cbn [rbind fst snd].
    destruct (sample_agents n rest g1) as [[[I A] g2]|] eqn:H2;
      [|discriminate]. cbn [rbind fst snd].
    intros H; inversion H; subst; clear H.
    destruct (sample_agent_rows _ _ _ _ H1) as [Hi Ha].
    destruct (IH _ _ _ _ H2) as [HI HA].
    split; constructor; assumption.
Qed.

Lemma rows_drawn n (pols : list vec) (M : matrix) :
  length pols = n -> Forall2 (row_ok n) (enumerate pols) M -> drawn n M.
Proof.
  intros Hn HF.
  assert (Hlen : length M = n).
  { rewrite <- Hn, <- (enumerate_length pols). symmetry.
    exact (Forall2_length HF). }
  assert (Hrow : forall i, (i < n)%nat ->
            row_ok n (i, nth i pols []) (nth i M [])).
  { intros i Hi.
    rewrite <- (enumerate_nth pols [] (i := i)) by lia.
    apply Forall2_nth_both; [assumption|]. rewrite enumerate_length. lia. }
  split.
  - apply shape_intro; [assumption|]. intros i Hi. apply (Hrow i Hi).
  - intros i j Hi Hj. destruct (Hrow i Hi) as (Hl & Hnn & _).
    rewrite Forall_forall in Hnn. apply Hnn. unfold entry. apply nth_In. lia.
  - intros i Hi. destruct (Hrow i Hi) as (_ & _ & Hz). apply Hz. exact Hi.
Qed.

(** ** The affinity update (lines 250-252) *)

Lemma affinity_delta_shape n invites accepts :
  (0 < n)%nat -> shape n n invites -> shape n n accepts ->
  shape n n (affinity_delta invites accepts).
Proof.
  intros Hn HI HA. unfold affinity_delta.
  apply mmap_shape, mmap2_shape; apply mmap2_shape; auto using transpose_shape.
Qed.

Lemma affinity_delta_entry n invites accepts i j :
  shape n n invites -> shape n n accepts -> (i < n)%nat -> (j < n)%nat ->
  entry (affinity_delta invites accepts) i j
  = delta * 0.5 * (entry accepts j i * entry invites i j
                   + entry invites j i * entry accepts i j).
Proof.
  intros HI HA Hi Hj. assert (Hn : (0 < n)%nat) by lia.
  pose proof (transpose_shape HI Hn) as HIt.
  pose proof (transpose_shape HA Hn) as HAt.
  unfold affinity_delta.
  rewrite (mmap_entry _ (mmap2_shape Rplus (mmap2_shape Rmult HAt HI)
                           (mmap2_shape Rmult HIt HA)) Hi Hj).
  rewrite (mmap2_entry Rplus (mmap2_shape Rmult HAt HI)
             (mmap2_shape Rmult HIt HA) Hi Hj).
  rewrite (mmap2_entry Rmult HAt HI Hi Hj), (mmap2_entry Rmult HIt HA Hi Hj).
  rewrite (transpose_entry HA Hj Hi), (transpose_entry HI Hj Hi).
  reflexivity.
Qed.

Lemma affinity_delta_nonneg n invites accepts i j :
  drawn n invites -> drawn n accepts -> (i < n)%nat -> (j < n)%nat ->
  0 <= entry (affinity_delta invites accepts) i j.
Proof.
  intros HI HA Hi Hj.
  rewrite (affinity_delta_entry (drawn_shape HI) (drawn_shape HA) Hi Hj).
  pose proof (drawn_nonneg HI Hi Hj). pose proof (drawn_nonneg HI Hj Hi).
  pose proof (drawn_nonneg HA Hi Hj). pose proof (drawn_nonneg HA Hj Hi).
  unfold delta.
  apply Rmult_le_pos; [lra|].
  apply Rplus_le_le_0_compat; apply Rmult_le_pos; assumption.
Qed.

Lemma affinity_delta_diag n invites accepts i :
  drawn n invites -> drawn n accepts -> (i < n)%nat ->
  entry (affinity_delta invites accepts) i i = 0.
Proof.
  intros HI HA Hi.
  rewrite (affinity_delta_entry (drawn_shape HI) (drawn_shape HA) Hi Hi).
  rewrite (drawn_diag HI Hi), (drawn_diag HA Hi). lra.
Qed.

(** ** Shapes kept by [reset] and [step] *)

Lemma exports_length n real for_exp :
  shape n n real -> (0 < n)%nat -> length (exports real for_exp) = n.
Proof.
  intros Hs Hn. unfold exports, matvec. rewrite length_map.
  apply (transpose_shape (fill_diagonal_shape 0 (trade_coeff_shape Hs Hn)) Hn).
Qed.

Lemma imports_rows_length n real :
  shape n n real -> (0 < n)%nat ->
  length (sum_axis1 (fill_diagonal (trade_coeff real) 0)) = n.
Proof.
  intros Hs Hn. unfold sum_axis1. rewrite length_map.
  apply (fill_diagonal_shape 0 (trade_coeff_shape Hs Hn)).
Qed.

Lemma economy_lengths st eco_actions :
  length (gdp st) = N -> length (price_lvl st) = N ->
  length eco_actions = N ->
  length (gdp (economy st eco_actions)) = N /\
  length (price_lvl (economy st eco_actions)) = N /\
  length (one_plus_gdp_growth_rate (economy st eco_actions)) = N /\
  length (one_plus_inf_rate (economy st eco_actions)) = N /\
  length (eco_reward (economy st eco_actions)) = N.
Proof.
  intros Hg Hp He.
  pose proof (real_exchange_rate_shape st eco_actions) as Hs.
  rewrite He in Hs. cbn [real_exchange_rate economy] in Hs.
  assert (HN : (0 < N)%nat) by (unfold N; lia).
  pose proof (exports_length
    (map2 (fun tau d => (1 - tau) * exp d) tau_values
       (map2 Rminus (gdp st) (map int_rate eco_actions))) Hs HN) as Hex.
  pose proof (imports_rows_length Hs HN) as Him.
  assert (Htau : length tau_values = N) by reflexivity.
  cbn [gdp price_lvl one_plus_gdp_growth_rate one_plus_inf_rate eco_reward
         economy].
  repeat rewrite ?length_map, ?map2_length, ?Hex, ?Him, ?Hg, ?Hp, ?He, ?Htau,
    ?Nat.min_id.
  repeat split; reflexivity.
Qed.

Lemma gather_length (V : Type) keys (d : list (string * V)) vs :
  gather keys d = Ok vs -> length vs = length keys.
Proof.
  revert vs. induction keys as [|k keys IH]; intros vs; simpl.
  - intros H; inversion H; reflexivity.
  - destruct (getitem d k); [|discriminate]. cbn [rbind].
    destruct (gather keys d) as [vs'|]; [|discriminate]. cbn [rbind].
    intros H; inversion H; subst. simpl. now rewrite (IH vs').
Qed.

Lemma eye_shape n : shape n n (eye n).
Proof.
  unfold eye. apply shape_intro.
  - now rewrite length_map, length_seq.
  - intros i Hi. rewrite nth_map_seq by assumption.
    now rewrite length_map, length_seq.
Qed.

Lemma eye_entry n i j :
  (i < n)%nat -> (j < n)%nat ->
  entry (eye n) i j = if Nat.eqb i j then 1 else 0.
Proof.
  intros Hi Hj. unfold entry, eye.
  rewrite nth_map_seq by assumption. now rewrite nth_map_seq.
Qed.

Lemma reset_affinity mode seed g :
  affinity (snd (fst (reset mode seed g))) = eye N.
Proof. reflexivity. Qed.

Lemma reset_shaped mode seed g : shaped (snd (fst (reset mode seed g))).
Proof.
  split; try reflexivity.
  - rewrite reset_affinity. apply eye_shape.
  - left. reflexivity.
Qed.

(** a [step] that returns started from a running environment, and drew
    [invites] and [accepts] of shape (N, N) *)
Lemma step_facts st actions g st' out g' :
  shaped st ->
  step st actions g = Ok ((st', out), g') ->
  exists acts invites accepts,
    agents st = possible_agents /\
    length acts = N /\
    drawn N invites /\ drawn N accepts /\
    supported (render_mode st) /\
    let st1 := economy st (map eco acts) in
    let dlt := affinity_delta invites accepts in
    let aff := mmap2 Rplus (affinity st) dlt in
    let over := Nat.leb 100 (t st + 1) in
    st' = set_agents_t (set_affinity st1 aff dlt)
            (if over then [] else agents st) (t st + 1) /\
    out = mkStepOut
            (build_observations (agents st) (eco_observation st1) aff)
            (combine (agents st) (matvec aff (eco_reward st1)))
            (map (fun a => (a, over)) (agents st))
            (map (fun a => (a, over)) (agents st))
            (map (fun a => (a, @nil (string * R))) (agents st)).
Proof.
  intros Hsh Hstep.
  destruct (step_inv _ _ _ Hstep)
    as (acts & invites & accepts & Hg & Hlen & Hs & Hr & Hst & Hout).
  pose proof (gather_length _ _ Hg) as Hga.
  rewrite (sh_gdp Hsh) in Hlen.
  assert (Hag : agents st = possible_agents).
  { destruct (sh_agents Hsh) as [E|E]; [assumption|].
    rewrite E in Hga. simpl in Hga. rewrite Hlen in Hga. discriminate. }
  assert (Hn : length (agents st) = N) by (rewrite Hag; reflexivity).
  rewrite Hn in Hs.
  destruct (sample_agents_rows _ _ _ Hs) as [HI HA].
  assert (Hpol : length (map pol acts) = N) by now rewrite length_map.
  exists acts, invites, accepts.
  split; [exact Hag|]. split; [exact Hlen|].
  split; [exact (rows_drawn _ Hpol HI)|].
  split; [exact (rows_drawn _ Hpol HA)|].
  split; [exact Hr|]. split; assumption.
Qed.

Lemma step_shaped st actions g st' out g' :
  shaped st -> step st actions g = Ok ((st', out), g') -> shaped st'.
Proof.
  intros Hsh Hstep.
  destruct (@step_facts _ _ _ _ _ _ Hsh Hstep)
    as (acts & invites & accepts & Hag & Hlen & HI & HA & _ & Hst & _).
  assert (Heco : length (map eco acts) = N) by now rewrite length_map.
  destruct (@economy_lengths st (map eco acts) (sh_gdp Hsh) (sh_price Hsh) Heco)
    as (Hg & Hp & Hgr & Hin & _).
  assert (HN : (0 < N)%nat) by (unfold N; lia).
  subst st'.
  split; cbn [gdp price_lvl one_plus_gdp_growth_rate one_plus_inf_rate
                eco_observation affinity agents set_agents_t set_affinity].
  - exact Hg.
  - exact Hgr.
  - exact Hp.
  - exact Hin.
  - reflexivity.
  - apply mmap2_shape; [apply (sh_affinity Hsh)|].
    apply affinity_delta_shape; [exact HN | apply HI | apply HA].
  - destruct (Nat.leb 100 (t st + 1)); [right; reflexivity | left; exact Hag].
Qed.

Lemma reachable_shaped st : reachable st -> shaped st.
Proof.
  induction 1 as [mode seed g | st actions g st' out g' _ IH Hstep].
  - apply reset_shaped.
  - exact (@step_shaped _ _ _ _ _ _ IH Hstep).
Qed.

(** C8. Across every [step] that returns, each affinity entry can only
    grow: [delta_affinity] is entrywise non-negative, the new affinity is
    the old one plus [delta_affinity], and so no entry decreases. *)
Theorem C8_affinity_never_decreases st actions g st' out g' i j :
  reachable st ->
  step st actions g = Ok ((st', out), g') ->
  (i < N)%nat -> (j < N)%nat ->
  0 <= entry (delta_affinity st') i j /\
  entry (affinity st') i j
    = entry (affinity st) i j + entry (delta_affinity st') i j /\
  entry (affinity st) i j <= entry (affinity st') i j.
Proof.
  intros Hreach Hstep Hi Hj.
  pose proof (reachable_shaped Hreach) as Hsh.
  destruct (@step_facts _ _ _ _ _ _ Hsh Hstep)
    as (acts & invites & accepts & _ & _ & HI & HA & _ & Hst & _).
  assert (HN : (0 < N)%nat) by lia.
  pose proof (affinity_delta_shape HN (drawn_shape HI) (drawn_shape HA)) as Hd.
  pose proof (affinity_delta_nonneg HI HA Hi Hj) as Hnn.
  subst st'. cbn [delta_affinity affinity set_agents_t set_affinity].
  rewrite (mmap2_entry Rplus (sh_affinity Hsh) Hd Hi Hj).
  repeat split; [exact Hnn | lra].
Qed.

(** C10. The diagonal of the affinity matrix is exactly 1 in every state
    an environment goes through: [reset] installs the identity matrix, and
    every [step] adds a [delta_affinity] whose diagonal is zero, because
    the self-invite and self-accept entries are zeroed (lines 244-245). *)
Theorem C10_affinity_diagonal_is_one st i :
  reachable st -> (i < N)%nat ->
  entry (affinity st) i i = 1 /\
  (forall actions g st' out g',
      step st actions g = Ok ((st', out), g') ->
      entry (delta_affinity st') i i = 0 /\ entry (affinity st') i i = 1).
Proof.
  intros Hreach Hi.
  assert (Hdiag : entry (affinity st) i i = 1).
  { induction Hreach as [mode seed g | st actions g st' out g' Hr IH Hstep].
    - rewrite reset_affinity, (eye_entry Hi Hi), Nat.eqb_refl. reflexivity.
    - pose proof (reachable_shaped Hr) as Hsh.
      destruct (@step_facts _ _ _ _ _ _ Hsh Hstep)
        as (acts & invites & accepts & _ & _ & HI & HA & _ & Hst & _).
      assert (HN : (0 < N)%nat) by lia.
      pose proof (affinity_delta_shape HN (drawn_shape HI) (drawn_shape HA))
        as Hd.
      subst st'. cbn [affinity set_agents_t set_affinity].
      rewrite (mmap2_entry Rplus (sh_affinity Hsh) Hd Hi Hi).
      rewrite IH, (affinity_delta_diag HI HA Hi). lra. }
  split; [exact Hdiag|].
  intros actions g st' out g' Hstep.
  pose proof (reachable_shaped Hreach) as Hsh.
  destruct (@step_facts _ _ _ _ _ _ Hsh Hstep)
    as (acts & invites & accepts & _ & _ & HI & HA & _ & Hst & _).
  assert (HN : (0 < N)%nat) by lia.
  pose proof (affinity_delta_shape HN (drawn_shape HI) (drawn_shape HA)) as Hd.
  subst st'. cbn [delta_affinity affinity set_agents_t set_affinity].
  rewrite (mmap2_entry Rplus (sh_affinity Hsh) Hd Hi Hi).
  rewrite Hdiag, (affinity_delta_diag HI HA Hi). split; lra.
Qed.

(** ** A [step] on a running environment returns *)

Lemma Rsum_map_div es s : Rsum (map (fun e => e / s) es) = Rsum es / s.
Proof.
  induction es as [|e es IH]; simpl.
  - unfold Rdiv. now rewrite Rmult_0_l.
  - rewrite IH. unfold Rdiv. now rewrite Rmult_plus_distr_r.
Qed.

Lemma Rsum_exp_pos x : x <> [] -> 0 < Rsum (map exp x).
Proof.
  destruct x as [|a x]; [congruence|]. intros _. simpl.
  assert (H : 0 <= Rsum (map exp x)).
  { induction x as [|b x IH]; simpl; [lra|].
    pose proof (exp_pos b). lra. }
  pose proof (exp_pos a). lra.
Qed.

Lemma softmax_sum x : x <> [] -> Rsum (softmax x) = 1.
Proof.
  intros Hx. unfold softmax. rewrite Rsum_map_div.
  pose proof (Rsum_exp_pos Hx). unfold Rdiv. apply Rinv_r. lra.
Qed.

Lemma softmax_length x : length (softmax x) = length x.
Proof. unfold softmax. now rewrite !length_map. Qed.

Lemma div_pos_no_negative s l :
  0 < s -> Forall (fun v => 0 < v) l ->
  existsb (fun p => if Rlt_dec p 0 then true else false)
    (map (fun v => v / s) l) = false.
Proof.
  intros Hs HF. induction HF as [|v l Hv _ IH]; [reflexivity|].
  simpl. rewrite IH.
  destruct (Rlt_dec (v / s) 0) as [Hneg|_]; [|reflexivity].
  pose proof (Rdiv_lt_0_compat v s Hv Hs). lra.
Qed.

Lemma softmax_no_negative x :
  existsb (fun p => if Rlt_dec p 0 then true else false) (softmax x) = false.
Proof.
  destruct x as [|a x]; [reflexivity|].
  unfold softmax. apply div_pos_no_negative.
  - apply Rsum_exp_pos. congruence.
  - apply Forall_map, Forall_forall. intros v _. apply exp_pos.
Qed.

Lemma choice_atol_nonneg : 0 <= choice_atol.
Proof. unfold choice_atol. apply sqrt_pos. Qed.

Lemma choice_ok n p g :
  length p = n ->
  existsb (fun x => if Rlt_dec x 0 then true else false) p = false ->
  Rsum p = 1 ->
  exists c g', choice n p g = Ok (c, g').
Proof.
  intros Hl Hneg Hsum. unfold choice.
  rewrite Hl, Nat.eqb_refl, Hneg. cbn [negb].
  destruct (Rgt_dec (Rabs (Rsum p - 1)) choice_atol) as [Hgt|_].
  - exfalso. rewrite Hsum in Hgt.
    replace (1 - 1) with 0 in Hgt by lra. rewrite Rabs_R0 in Hgt.
    pose proof choice_atol_nonneg. lra.
  - cbn. eauto.
Qed.

Lemma sample_agent_ok n i pa g :
  (0 < n)%nat -> length pa = (2 * n)%nat ->
  exists r, sample_agent n i pa g = Ok r.
Proof.
  intros Hn Hl. unfold sample_agent.
  assert (Hf : length (firstn n pa) = n) by (rewrite length_firstn; lia).
  assert (Hne : firstn n pa <> []).
  { intros E. rewrite E in Hf. simpl in Hf. lia. }
  destruct (@choice_ok n (softmax (firstn n pa)) g) as (c & g1 & Hc).
  - now rewrite softmax_length.
  - apply softmax_no_negative.
  - now apply softmax_sum.
  - rewrite Hc. cbn [rbind fst snd uniform].
    unfold broadcast_to.
    rewrite length_map, length_skipn.
    replace (length pa - n)%nat with n by lia. rewrite Nat.eqb_refl.
    cbn [rbind]. eauto.
Qed.

Lemma sample_agents_ok n ipol g :
  (0 < n)%nat ->
  Forall (fun ip => length (snd ip) = (2 * n)%nat) ipol ->
  exists r, sample_agents n ipol g = Ok r.
Proof.
  intros Hn HF. revert g.
  induction HF as [|[i pa] rest Hpa _ IH]; intros g; simpl.
  - eauto.
  - destruct (@sample_agent_ok n i pa g Hn Hpa) as (r1 & H1). rewrite H1.
    cbn [rbind]. destruct (IH (snd r1)) as (r2 & H2). rewrite H2.
    cbn [rbind]. eauto.
Qed.

Lemma enumerate_Forall_snd (A : Type) (P : A -> Prop) (xs : list A) :
  Forall P xs -> Forall (fun ip => P (snd ip)) (enumerate xs).
Proof.
  intros HF. apply Forall_forall. intros [i x] Hin.
  unfold enumerate in Hin. apply in_combine_r in Hin.
  rewrite Forall_forall in HF. now apply HF.
Qed.

Lemma step_returns st actions g :
  running st -> supported (render_mode st) -> valid_actions actions ->
  exists st' out g', step st actions g = Ok ((st', out), g').
Proof.
  intros [Hsh Hag] Hsup (acts & Hg & Hpol).
  pose proof (gather_length _ _ Hg) as Hlen.
  change (length possible_agents) with N in Hlen.
  unfold step. rewrite Hag, Hg. cbn [rbind].
  rewrite length_map, Hlen, (sh_gdp Hsh), Nat.eqb_refl. cbn [negb].
  destruct (vec_eq_dec _ _) as [_|Hne];
    [|exfalso; apply Hne, economy_exports_agree].
  assert (HF : Forall (fun ip : nat * vec => length (snd ip) = (2 * N)%nat)
                 (enumerate (map pol acts))).
  { apply enumerate_Forall_snd with (P := fun v : vec => length v = (2 * N)%nat).
    now apply Forall_map. }
  assert (HN : (0 < N)%nat) by (unfold N; lia).
  destruct (@sample_agents_ok N _ g HN HF) as (r & Hr).
  change (num_agents possible_agents) with N. rewrite Hr. cbn [rbind].
  rewrite render_mode_set_agents_t, render_mode_set_affinity,
    render_mode_economy.
  apply render_ok in Hsup. rewrite Hsup. cbn [rbind]. eauto.
Qed.

(** ** The interest-rate proxy (line 194) *)

(** *** Rounding to binary64 *)

Lemma bpow_pos e : 0 < bpow e.
Proof. apply powerRZ_lt. lra. Qed.

Lemma bpow_add a b : bpow (a + b) = bpow a * bpow b.
Proof. apply powerRZ_add. lra. Qed.

Lemma bpow_opp a : bpow (- a) = / bpow a.
Proof. apply powerRZ_neg'. Qed.

Lemma bpow_exp e : bpow e = exp (IZR e * ln 2).
Proof. unfold bpow. rewrite powerRZ_Rpower by lra. reflexivity. Qed.

Lemma ln2_pos : 0 < ln 2.
Proof. pose proof ln_lt_2. lra. Qed.

Lemma bpow_lt a b : (a < b)%Z -> bpow a < bpow b.
Proof.
  intros H. rewrite !bpow_exp. apply exp_increasing.
  apply Rmult_lt_compat_r; [exact ln2_pos | now apply IZR_lt].
Qed.

Lemma bpow_le a b : (a <= b)%Z -> bpow a <= bpow b.
Proof.
  intros H. destruct (Z.eq_dec a b) as [->|Hne]; [lra|].
  left. apply bpow_lt. lia.
Qed.

Lemma bpow_lt_inv a b : bpow a < bpow b -> (a < b)%Z.
Proof.
  intros H. destruct (Z_lt_le_dec a b) as [Hlt|Hle]; [exact Hlt|].
  pose proof (@bpow_le _ _ Hle). lra.
Qed.

Lemma bpow_IZR e : (0 <= e)%Z -> bpow e = IZR (2 ^ e).
Proof.
  intros He. unfold bpow.
  rewrite <- (Z2Nat.id e He) at 1.
  rewrite <- pow_powerRZ, pow_IZR, Z2Nat.id by exact He. reflexivity.
Qed.

Lemma Znearest_floor x : (Zfloor x <= Znearest x <= Zfloor x + 1)%Z.
Proof.
  unfold Znearest. cbv zeta.
  destruct (Rlt_dec _ _); [lia|]. destruct (Rlt_dec _ _); [lia|].
  destruct (Z.even _); lia.
Qed.

Lemma Znearest_ge x n : IZR n <= x -> (n <= Znearest x)%Z.
Proof.
  intros H. pose proof (Zfloor_lub _ _ H). pose proof (Znearest_floor x). lia.
Qed.

Lemma Znearest_near x n : Rabs (x - IZR n) < / 2 -> Znearest x = n.
Proof.
  intros H. apply Rabs_def2 in H. destruct H as [H1 H2].
  unfold Znearest. cbv zeta.
  destruct (Rle_lt_dec (IZR n) x) as [Hle|Hlt].
  - assert (E : Zfloor x = n) by (apply Zfloor_eq; lra).
    rewrite E. destruct (Rlt_dec _ _); [reflexivity | lra].
  - assert (E : Zfloor x = (n - 1)%Z).
    { apply Zfloor_eq. rewrite minus_IZR. lra. }
    rewrite E, minus_IZR.
    destruct (Rlt_dec _ _); [lra|]. destruct (Rlt_dec _ _); [lia | lra].
Qed.

Lemma Znearest_IZR n : Znearest (IZR n) = n.
Proof.
  apply Znearest_near. replace (IZR n - IZR n) with 0 by lra.
  rewrite Rabs_R0. lra.
Qed.

Lemma Znearest_le x n : x <= IZR n -> (Znearest x <= n)%Z.
Proof.
  intros [Hlt|Heq].
  - pose proof (Zfloor_bound x) as [Hb _].
    assert (Zfloor x < n)%Z by (apply lt_IZR; lra).
    pose proof (Znearest_floor x). lia.
  - subst x. rewrite Znearest_IZR. lia.
Qed.

Lemma mag2_spec x : 0 < x -> bpow (mag2 x) <= x < bpow (mag2 x + 1).
Proof.
  intros Hx. unfold mag2. rewrite (Rabs_pos_eq x) by lra.
  pose proof (Zfloor_bound (ln x / ln 2)) as [H1 H2].
  pose proof ln2_pos as Hl.
  set (k := Zfloor (ln x / ln 2)) in *.
  assert (E1 : IZR k * ln 2 <= ln x).
  { apply Rmult_le_compat_r with (r := ln 2) in H1; [|lra].
    unfold Rdiv in H1. rewrite Rmult_assoc, Rinv_l, Rmult_1_r in H1 by lra.
    exact H1. }
  assert (E2 : ln x < IZR (k + 1) * ln 2).
  { rewrite plus_IZR.
    apply Rmult_lt_compat_r with (r := ln 2) in H2; [|lra].
    unfold Rdiv in H2. rewrite Rmult_assoc, Rinv_l, Rmult_1_r in H2 by lra.
    exact H2. }
  rewrite !bpow_exp. split.
  - rewrite <- (exp_ln x Hx) at 1.
    destruct E1 as [E1|E1]; [left; now apply exp_increasing | rewrite E1; lra].
  - rewrite <- (exp_ln x Hx) at 1. now apply exp_increasing.
Qed.

Lemma mag2_lt x k : 0 < x -> x < bpow k -> (mag2 x < k)%Z.
Proof.
  intros Hx H. apply bpow_lt_inv. pose proof (@mag2_spec _ Hx). lra.
Qed.

Lemma mag2_ge x k : 0 < x -> bpow k <= x -> (k <= mag2 x)%Z.
Proof.
  intros Hx H. pose proof (@mag2_spec _ Hx) as [_ H2].
  assert (k < mag2 x + 1)%Z by (apply bpow_lt_inv; lra). lia.
Qed.

Lemma mag2_eq x k : bpow k <= x < bpow (k + 1) -> mag2 x = k.
Proof.
  intros [H1 H2]. assert (Hx : 0 < x) by (pose proof (bpow_pos k); lra).
  pose proof (@mag2_lt _ _ Hx H2). pose proof (@mag2_ge _ _ Hx H1). lia.
Qed.

Lemma round64_nonneg x : 0 <= x -> 0 <= round64 x.
Proof.
  intros Hx. unfold round64. destruct (Req_dec_T x 0); [lra|].
  apply Rmult_le_pos; [|left; apply bpow_pos].
  apply IZR_le. apply Znearest_ge.
  apply Rmult_le_pos; [exact Hx | left; apply bpow_pos].
Qed.

Lemma bpow_split e f : (f <= e)%Z -> bpow e = IZR (2 ^ (e - f)) * bpow f.
Proof.
  intros H. rewrite <- bpow_IZR by lia. rewrite <- bpow_add. f_equal. lia.
Qed.

Lemma bpow_cancel f : bpow f * bpow (- f) = 1.
Proof. rewrite <- bpow_add, Z.add_opp_diag_r. reflexivity. Qed.

(** rounding does not pass a representable number *)
Lemma round64_le_repr x n e :
  0 < x -> x <= IZR n * bpow e -> (fexp64 x <= e)%Z ->
  round64 x <= IZR n * bpow e.
Proof.
  intros Hx Hle He. unfold round64. destruct (Req_dec_T x 0); [lra|].
  set (f := fexp64 x) in *.
  rewrite (@bpow_split _ _ He), <- Rmult_assoc, <- mult_IZR.
  apply Rmult_le_compat_r; [left; apply bpow_pos|].
  apply IZR_le, Znearest_le.
  rewrite mult_IZR.
  apply Rmult_le_reg_r with (bpow f); [apply bpow_pos|].
  rewrite !Rmult_assoc, (Rmult_comm (bpow (- f))), bpow_cancel, Rmult_1_r.
  rewrite <- (@bpow_split _ _ He). exact Hle.
Qed.

Lemma round64_ge_bpow x k :
  bpow k <= x -> (-1022 <= k)%Z -> bpow k <= round64 x.
Proof.
  intros Hle Hk. assert (Hx : 0 < x) by (pose proof (bpow_pos k); lra).
  unfold round64. destruct (Req_dec_T x 0); [lra|].
  pose proof (@mag2_ge _ _ Hx Hle) as Hm. pose proof (@mag2_spec _ Hx) as [Hs _].
  assert (Hf : fexp64 x = (mag2 x - 52)%Z) by (unfold fexp64; lia).
  rewrite Hf. set (f := (mag2 x - 52)%Z) in *.
  apply Rle_trans with (bpow (mag2 x)); [apply bpow_le; lia|].
  assert (Hfm : (f <= mag2 x)%Z) by (unfold f; lia).
  rewrite (@bpow_split _ _ Hfm).
  apply Rmult_le_compat_r; [left; apply bpow_pos|].
  apply IZR_le, Znearest_ge.
  apply Rmult_le_reg_r with (bpow f); [apply bpow_pos|].
  rewrite !Rmult_assoc, (Rmult_comm (bpow (- f))), bpow_cancel, Rmult_1_r.
  rewrite <- (@bpow_split _ _ Hfm). exact Hs.
Qed.

Lemma round64_repr n e :
  (0 < n)%Z -> (fexp64 (IZR n * bpow e) <= e)%Z ->
  round64 (IZR n * bpow e) = IZR n * bpow e.
Proof.
  intros Hn He.
  assert (Hx : 0 < IZR n * bpow e).
  { apply Rmult_lt_0_compat; [now apply IZR_lt | apply bpow_pos]. }
  unfold round64. destruct (Req_dec_T _ 0); [lra|].
  set (f := fexp64 (IZR n * bpow e)) in *.
  rewrite (@bpow_split _ _ He) at 1.
  rewrite !Rmult_assoc, bpow_cancel, Rmult_1_r, <- mult_IZR, Znearest_IZR.
  rewrite mult_IZR, Rmult_assoc, <- (bpow_split He). reflexivity.
Qed.

Lemma ln2_le_1 : ln 2 <= 1.
Proof.
  assert (H : 2 < exp 1) by (pose proof (exp_ineq1 1); lra).
  apply ln_increasing in H; [|lra]. rewrite ln_exp in H. lra.
Qed.

Lemma exp_ge_bpow k : (0 <= k)%Z -> bpow k <= exp (IZR k).
Proof.
  intros Hk. rewrite bpow_exp.
  assert (H : IZR k * ln 2 <= IZR k).
  { pose proof ln2_le_1. apply IZR_le in Hk.
    rewrite <- (Rmult_1_r (IZR k)) at 2.
    apply Rmult_le_compat_l; lra. }
  destruct H as [H|H]; [left; now apply exp_increasing | rewrite H; lra].
Qed.

Lemma exp_le x y : x <= y -> exp x <= exp y.
Proof.
  intros [H|H]; [left; now apply exp_increasing | rewrite H; lra].
Qed.

Lemma exp_opp_small a k : (0 <= k)%Z -> IZR k <= a -> exp (- a) <= bpow (- k).
Proof.
  intros Hk Ha. rewrite bpow_opp, exp_Ropp.
  apply Rinv_le_contravar; [apply bpow_pos|].
  apply Rle_trans with (exp (IZR k)); [now apply exp_ge_bpow | now apply exp_le].
Qed.

Lemma c020_value : c020 = IZR 7205759403792794 * bpow (-55).
Proof.
  unfold c020, round64. destruct (Req_dec_T 0.20 0); [lra|].
  assert (Hm : mag2 0.20 = (-3)%Z).
  { apply mag2_eq. change (-3 + 1)%Z with (- (2))%Z.
    change (-3)%Z with (- (3))%Z.
    rewrite !bpow_opp, !bpow_IZR by lia.
    change (2 ^ 3)%Z with 8%Z. change (2 ^ 2)%Z with 4%Z. lra. }
  assert (Hf : fexp64 0.20 = (-55)%Z) by (unfold fexp64; rewrite Hm; reflexivity).
  rewrite Hf. f_equal. f_equal. apply Znearest_near.
  change (- -55)%Z with 55%Z. rewrite bpow_IZR by lia.
  replace (2 ^ 55)%Z with 36028797018963968%Z by reflexivity.
  apply Rabs_def1; lra.
Qed.

Lemma c020_bounds : 0.20 < c020 < 0.20 + / 10 ^ 16.
Proof.
  rewrite c020_value. change (-55)%Z with (- (55))%Z.
  rewrite bpow_opp, bpow_IZR by lia.
  replace (2 ^ 55)%Z with 36028797018963968%Z by reflexivity.
  lra.
Qed.

Lemma c020_mag : mag2 c020 = (-3)%Z.
Proof.
  pose proof c020_bounds as Hb.
  apply mag2_eq. change (-3 + 1)%Z with (- (2))%Z.
  change (-3)%Z with (- (3))%Z.
  rewrite !bpow_opp, !bpow_IZR by lia.
  change (2 ^ 3)%Z with 8%Z. change (2 ^ 2)%Z with 4%Z.
  assert (/ 10 ^ 16 < / 100) by (apply Rinv_lt_contravar; lra).
  lra.
Qed.

Lemma round64_c020 : round64 c020 = c020.
Proof.
  assert (Hf : fexp64 c020 = (-55)%Z)
    by (unfold fexp64; rewrite c020_mag; reflexivity).
  rewrite c020_value in Hf |- *. apply round64_repr; [lia|].
  rewrite Hf. lia.
Qed.


Lemma max_f64_lt : max_f64 < bpow 1024.
Proof.
  unfold max_f64. rewrite !bpow_IZR, <- mult_IZR by lia.
  apply IZR_lt. reflexivity.
Qed.

(** [1 + e] rounds to 1 as soon as [e] is below a quarter of the last
    place of 1 *)
Lemma round64_absorbs e : 0 <= e <= bpow (-54) -> round64 (1 + e) = 1.
Proof.
  intros [H0 H1].
  assert (Hb : bpow (-54) = / IZR (2 ^ 54)).
  { change (-54)%Z with (- (54))%Z. rewrite bpow_opp, bpow_IZR by lia.
    reflexivity. }
  replace (2 ^ 54)%Z with 18014398509481984%Z in Hb by reflexivity.
  rewrite Hb in H1.
  assert (Hs : / 18014398509481984 < / 2) by (apply Rinv_lt_contravar; lra).
  assert (Hm : mag2 (1 + e) = 0%Z).
  { apply mag2_eq. change (0 + 1)%Z with 1%Z.
    rewrite !bpow_IZR by lia. change (2 ^ 0)%Z with 1%Z.
    change (2 ^ 1)%Z with 2%Z. lra. }
  unfold round64. destruct (Req_dec_T (1 + e) 0); [lra|].
  assert (Hf : fexp64 (1 + e) = (-52)%Z)
    by (unfold fexp64; rewrite Hm; reflexivity).
  rewrite Hf. change (- -52)%Z with 52%Z.
  assert (Hn : Znearest ((1 + e) * bpow 52) = (2 ^ 52)%Z).
  { apply Znearest_near. rewrite bpow_IZR by lia.
    replace (2 ^ 52)%Z with 4503599627370496%Z by reflexivity.
    apply Rabs_def1; [|nra].
    assert (e * 4503599627370496
            <= / 18014398509481984 * 4503599627370496)
      by (apply Rmult_le_compat_r; lra).
    lra. }
  rewrite Hn. change (-52)%Z with (- (52))%Z.
  rewrite bpow_opp, bpow_IZR by lia. apply Rinv_r.
  apply not_0_IZR. discriminate.
Qed.

(** the computed proxy for large actions *)
Lemma int_rate_f64_large a : 54 <= a -> int_rate_f64 a = c020.
Proof.
  intros Ha.
  assert (Hx : 0 < exp (- a)) by apply exp_pos.
  assert (Hle : exp (- a) <= IZR 1 * bpow (-54)).
  { rewrite Rmult_1_l. apply (@exp_opp_small a 54); [lia | exact Ha]. }
  assert (Hf : (fexp64 (exp (- a)) <= -54)%Z).
  { assert (mag2 (exp (- a)) < -53)%Z.
    { apply mag2_lt; [exact Hx|].
      apply Rle_lt_trans with (bpow (-54)); [lra | apply bpow_lt; lia]. }
    unfold fexp64. lia. }
  pose proof (@round64_le_repr _ _ _ Hx Hle Hf) as Hr. rewrite Rmult_1_l in Hr.
  pose proof (@round64_nonneg _ (Rlt_le _ _ Hx)) as Hr0.
  unfold int_rate_f64, np_exp, overflow64.
  destruct (Rlt_dec max_f64 (round64 (exp (- a)))) as [Hov|_].
  - exfalso. pose proof max_f64_lt.
    assert (0 < max_f64).
    { unfold max_f64. apply Rmult_lt_0_compat; [|apply bpow_pos].
      apply IZR_lt. reflexivity. }
    assert (bpow (-54) < bpow 0) by (apply bpow_lt; lia).
    assert (bpow 0 <= max_f64).
    { unfold max_f64. rewrite !bpow_IZR, <- mult_IZR by lia.
      apply IZR_le. discriminate. }
    lra.
  - rewrite round64_absorbs by (split; assumption).
    unfold Rdiv. rewrite Rinv_1, Rmult_1_r. apply round64_c020.
Qed.

(** ... and for large negative ones *)
Lemma int_rate_f64_small a : a <= -1024 -> int_rate_f64 a = 0.
Proof.
  intros Ha.
  assert (Hle : bpow 1024 <= exp (- a)).
  { apply Rle_trans with (exp (IZR 1024)); [apply exp_ge_bpow; lia|].
    apply exp_le. lra. }
  pose proof (@round64_ge_bpow _ 1024 Hle ltac:(lia)) as Hr.
  pose proof max_f64_lt.
  unfold int_rate_f64, np_exp, overflow64.
  destruct (Rlt_dec max_f64 (round64 (exp (- a)))); [reflexivity | lra].
Qed.


(** *** The range of the proxy *)



Lemma step_int_rates st eco_actions :
  one_plus_int_rate (economy st eco_actions) = map int_rate eco_actions.
Proof. reflexivity. Qed.

(** ** The acceptance probability (lines 234 and 239) *)

(** C7, at the accept preference [x = 1]: the probability the code hands
    to the Bernoulli draw is [1 / (1 + exp(1))], not the logistic value
    [1 / (1 + exp(-1))], and it is smaller than the probability at
    [x = 0]: acceptance falls where the preference rises. *)
Theorem C7_sigmoid_at_one :
  sigmoid 1 = 1 / (1 + exp 1) /\
  sigmoid 1 <> logistic 1 /\
  sigmoid 1 < sigmoid 0.
Proof.
  split; [reflexivity|]. split.
  - rewrite sigmoid_is_logistic_of_opp. intros H.
    assert (Hlt : logistic (Ropp 1) < logistic 1)
      by (apply logistic_increasing; lra).
    lra.
  - apply sigmoid_decreasing. lra.
Qed.

(** ** The economic reward (line 228) *)

Lemma C5_counterexample : eco_reward_of 0 0 <> claimed_eco_reward 0 0.
Proof.
  unfold eco_reward_of, claimed_eco_reward, kappa, inf_target, Rsqr.
  rewrite exp_0. lra.
Qed.

Lemma step_eco_reward st eco_actions :
  eco_reward (economy st eco_actions)
  = map2 eco_reward_of
      (one_plus_gdp_growth_rate (economy st eco_actions))
      (one_plus_inf_rate (economy st eco_actions)).
Proof. reflexivity. Qed.

(** C5, amended. After every [step] that returns, the economic reward of
    agent [i] is [(exp(growth_i) - 1) - kappa * (exp(inflation_i) - 1 -
    inf_target)^2] with [kappa = 100] and [inf_target = 0.02]: the squared
    term is the inflation rate [exp(inflation_i) - 1] minus the target. *)
Theorem C5_eco_reward_formula st actions g st' out g' i :
  reachable st ->
  step st actions g = Ok ((st', out), g') ->
  (i < N)%nat ->
  nth i (eco_reward st') 0
  = (exp (nth i (one_plus_gdp_growth_rate st') 0) - 1)
    - 100 * Rsqr (exp (nth i (one_plus_inf_rate st') 0) - 1 - 0.02).
Proof.
  intros Hreach Hstep Hi.
  pose proof (reachable_shaped Hreach) as Hsh.
  destruct (@step_facts _ _ _ _ _ _ Hsh Hstep)
    as (acts & invites & accepts & _ & Hlen & _ & _ & _ & Hst & _).
  assert (Heco : length (map eco acts) = N) by now rewrite length_map.
  destruct (@economy_lengths st (map eco acts) (sh_gdp Hsh) (sh_price Hsh) Heco)
    as (_ & _ & Hg & Hp & _).
  subst st'.
  cbn [eco_reward one_plus_gdp_growth_rate one_plus_inf_rate
         set_agents_t set_affinity].
  rewrite step_eco_reward.
  rewrite (map2_nth eco_reward_of _ _ 0 0 0) by lia.
  reflexivity.
Qed.

(** ** Seeds and the generator (lines 160-184, 240-243) *)

Lemma C9_counterexample :
  fst (episode (Some "human"%string) (Some 0%nat) zero_gen [])
  <> fst (episode (Some "human"%string) (Some 0%nat) one_gen []).
Proof.
  intros H.
  apply (f_equal (fun r => nth 0 (snd (nth 0 (fst r) (EmptyString, []))) 0)) in H.
  cbn in H. unfold std_gdp in H. lra.
Qed.

(** C9, amended. A run is determined by the state of the process-wide
    generator and the actions, not by the seed: [reset] never reads its
    [seed] argument, so from one generator state and one action sequence
    any two seeds give the same observations, rewards, terminations,
    truncations and infos at every step, and the same final state. *)
Theorem C9_seed_is_ignored mode (seed1 seed2 : option nat) g acts :
  episode mode seed1 g acts = episode mode seed2 g acts /\
  reset mode seed1 g = reset mode seed2 g.
Proof. split; reflexivity. Qed.

(** ** Dictionaries keyed by the agents *)

Lemma possible_agents_nth i :
  (i < N)%nat -> nth i possible_agents EmptyString = agent_name i.
Proof. intros Hi. unfold possible_agents. now rewrite nth_map_seq. Qed.

Lemma possible_agents_NoDup : NoDup possible_agents.
Proof.
  unfold possible_agents, N. simpl.
  repeat constructor; simpl; intuition discriminate.
Qed.

Lemma getitem_combine_nth (V : Type) keys (vals : list V) i d :
  NoDup keys -> (i < length keys)%nat -> length vals = length keys ->
  getitem (combine keys vals) (nth i keys EmptyString) = Ok (nth i vals d).
Proof.
  intros Hnd. revert vals i.
  induction Hnd as [|k keys Hnotin Hnd IH]; intros vals i Hi Hl;
    simpl in Hi; [lia|].
  destruct vals as [|v vals]; [discriminate|]. simpl in Hl.
  destruct i as [|i]; simpl.
  - now rewrite String.eqb_refl.
  - destruct (String.eqb_spec k (nth i keys EmptyString)) as [E|_].
    + exfalso. apply Hnotin. rewrite E. apply nth_In. lia.
    + apply IH; lia.
Qed.

Lemma map_enumerate_combine (A B : Type) (F : nat -> B) (keys : list A) :
  map (fun ia => (snd ia, F (fst ia))) (enumerate keys)
  = combine keys (map F (seq 0 (length keys))).
Proof.
  unfold enumerate. generalize 0%nat as start.
  induction keys as [|k keys IH]; intros start; simpl; [reflexivity|].
  f_equal. apply IH.
Qed.

Lemma dot_big_sum n a b :
  length a = n -> length b = n ->
  dot a b = big_sum n (fun j => nth j a 0 * nth j b 0).
Proof.
  intros Ha Hb. unfold dot, big_sum. f_equal.
  apply (nth_ext _ _ 0 0).
  - rewrite map2_length, length_map, length_seq. lia.
  - intros j Hj. rewrite map2_length in Hj.
    rewrite (map2_nth Rmult a b 0 0 0) by lia.
    rewrite nth_map_seq by lia. reflexivity.
Qed.

Lemma shape_lt n m (M : matrix) i :
  shape n m M -> (i < n)%nat -> (i < length M)%nat.
Proof. intros [E _] Hi. now rewrite E. Qed.

(** ** Rewards (lines 262-263) *)


(** ** Observations (lines 178-182 and 254-258) *)

Lemma roll_0 (A : Type) (rows : list A) : roll 0 rows = rows.
Proof.
  unfold roll. destruct (length rows) as [|n'] eqn:E; [reflexivity|].
  rewrite Nat.mod_small by lia. rewrite Nat.sub_0_r, <- E.
  rewrite skipn_all, firstn_all. reflexivity.
Qed.

Lemma roll_length (A : Type) k (rows : list A) :
  length (roll k rows) = length rows.
Proof.
  unfold roll. destruct (length rows) as [|n'] eqn:E; [exact E|].
  rewrite length_app, length_skipn, length_firstn, E. lia.
Qed.

Lemma roll_nth (A : Type) (rows : list A) k r d :
  (r < length rows)%nat ->
  nth r (roll k rows) d
  = nth ((r + length rows - k mod length rows) mod length rows) rows d.
Proof.
  intros Hr. unfold roll. cbv zeta.
  remember (length rows) as n eqn:E. destruct n as [|n']; [lia|].
  assert (Hs : (k mod S n' < S n')%nat) by (apply Nat.mod_upper_bound; lia).
  remember (k mod S n')%nat as s eqn:Es. clear Es.
  destruct (Nat.lt_ge_cases r s) as [Hlt|Hge].
  - rewrite app_nth1 by (rewrite length_skipn, <- E; lia).
    rewrite nth_skipn. f_equal. rewrite Nat.mod_small by lia. lia.
  - rewrite app_nth2 by (rewrite length_skipn, <- E; lia).
    rewrite length_skipn, <- E, nth_firstn.
    destruct (Nat.ltb_spec (r - (S n' - (S n' - s))) (S n' - s)); [|lia].
    f_equal.
    replace (r + S n' - s)%nat with ((r - s) + 1 * S n')%nat by lia.
    rewrite Nat.Div0.mod_add. rewrite Nat.mod_small by lia. lia.
Qed.

Lemma hstack_shape n a b P Q :
  shape n a P -> shape n b Q -> shape n (a + b) (hstack P Q).
Proof.
  intros HP HQ. unfold hstack. apply shape_intro.
  - rewrite map2_length. destruct HP, HQ. lia.
  - intros i Hi.
    rewrite (map2_nth (@app R) P Q [] [] []) by (destruct HP, HQ; lia).
    rewrite length_app, (shape_row HP Hi), (shape_row HQ Hi). reflexivity.
Qed.

Lemma hstack_nth n a b P Q r :
  shape n a P -> shape n b Q -> (r < n)%nat ->
  nth r (hstack P Q) [] = nth r P [] ++ nth r Q [].
Proof.
  intros HP HQ Hr. unfold hstack.
  apply map2_nth; [exact (shape_lt HP Hr) | exact (shape_lt HQ Hr)].
Qed.

Lemma rows4_shape n (a b c d : vec) :
  length a = n -> length b = n -> length c = n -> length d = n ->
  shape 4 n [a; b; c; d].
Proof. intros Ha Hb Hc Hd. split; [reflexivity|]. repeat constructor; assumption. Qed.

Lemma transpose4_nth n (a b c d : vec) r :
  length a = n -> (r < n)%nat ->
  nth r (transpose [a; b; c; d]) [] = [nth r a 0; nth r b 0; nth r c 0; nth r d 0].
Proof.
  intros Ha Hr. unfold transpose. cbn [width]. rewrite Ha.
  rewrite nth_map_seq by assumption. reflexivity.
Qed.

Lemma eco_observation_shape st : shaped st -> shape N 4 (eco_observation st).
Proof.
  intros Hsh. rewrite (sh_eco Hsh).
  apply transpose_shape; [|lia].
  apply rows4_shape; [apply (sh_gdp Hsh) | apply (sh_growth Hsh)
                     | apply (sh_price Hsh) | apply (sh_inf Hsh)].
Qed.

Lemma returned_with_spec st obs :
  returned_with st obs ->
  reachable st /\
  obs = build_observations possible_agents (eco_observation st) (affinity st).
Proof.
  intros H. destruct H as [mode seed g | st actions g st' out g' Hr Hstep].
  - split; [apply reach_reset | reflexivity].
  - split; [exact (@reach_step _ _ _ _ _ _ Hr Hstep)|].
    pose proof (reachable_shaped Hr) as Hsh.
    destruct (@step_facts _ _ _ _ _ _ Hsh Hstep)
      as (acts & invites & accepts & Hag & _ & _ & _ & _ & Hst & Hout).
    subst st' out.
    cbn [observations eco_observation affinity set_agents_t set_affinity].
    now rewrite Hag.
Qed.

Lemma build_observations_getitem eco_obs aff i :
  (i < N)%nat ->
  getitem (build_observations possible_agents eco_obs aff) (agent_name i)
  = Ok (flatten (roll i (hstack eco_obs aff))).
Proof.
  intros Hi. unfold build_observations.
  rewrite (map_enumerate_combine
             (fun k => flatten (observation_matrix eco_obs aff k))).
  rewrite <- (possible_agents_nth Hi).
  rewrite (getitem_combine_nth _ ([] : vec) possible_agents_NoDup).
  - change (length possible_agents) with N.
    rewrite nth_map_seq by assumption. reflexivity.
  - change (length possible_agents) with N. lia.
  - now rewrite length_map, length_seq.
Qed.

Lemma C6_counterexample :
  nth 0 (roll 1 (hstack (eco_observation env0) (affinity env0))) []
  <> nth 1 (hstack (eco_observation env0) (affinity env0)) [].
Proof.
  intros H. apply (f_equal (fun r => nth 5 r 0)) in H.
  cbn in H. lra.
Qed.

(** C6, amended. With every state returned by [reset] or [step], the
    observation of agent [i] is the flattening of the shared N x (4 + N)
    matrix (row [r] carries agent [r]'s gdp, growth, price level,
    inflation and affinity row) rolled by [i] rows: agent 0 sees the
    matrix itself, row [r] of agent [i]'s view is row [(r - i) mod N] of
    it, and the first row agent [i] sees is row [(N - i) mod N]. *)
Theorem C6_observation_rotation st obs i :
  returned_with st obs -> (i < N)%nat ->
  let M0 := hstack (eco_observation st) (affinity st) in
  shape N (4 + N) M0 /\
  (forall r, (r < N)%nat ->
     nth r M0 []
     = [nth r (gdp st) 0; nth r (one_plus_gdp_growth_rate st) 0;
        nth r (price_lvl st) 0; nth r (one_plus_inf_rate st) 0]
       ++ nth r (affinity st) []) /\
  getitem obs (agent_name 0) = Ok (flatten M0) /\
  getitem obs (agent_name i) = Ok (flatten (roll i M0)) /\
  (forall r, (r < N)%nat ->
     nth r (roll i M0) [] = nth ((r + N - i) mod N) M0 []) /\
  nth 0 (roll i M0) [] = nth ((N - i) mod N) M0 [].
Proof.
  intros Hret Hi M0.
  destruct (returned_with_spec Hret) as [Hreach ->].
  pose proof (reachable_shaped Hreach) as Hsh.
  pose proof (eco_observation_shape Hsh) as He.
  pose proof (hstack_shape He (sh_affinity Hsh)) as HM.
  assert (HN : (0 < N)%nat) by lia.
  assert (Hlen : length M0 = N) by exact (proj1 HM).
  assert (Hroll : forall r, (r < N)%nat ->
            nth r (roll i M0) [] = nth ((r + N - i) mod N) M0 []).
  { intros r Hr. rewrite roll_nth by (rewrite Hlen; exact Hr).
    rewrite Hlen, (Nat.mod_small i N Hi). reflexivity. }
  split; [exact HM|]. split.
  - intros r Hr. unfold M0.
    rewrite (hstack_nth He (sh_affinity Hsh) Hr). f_equal.
    rewrite (sh_eco Hsh). apply (@transpose4_nth N); [apply (sh_gdp Hsh) | exact Hr].
  - split.
    + rewrite (build_observations_getitem _ _ HN). now rewrite roll_0.
    + split; [apply (build_observations_getitem _ _ Hi)|].
      split; [exact Hroll|]. apply (Hroll 0%nat HN).
Qed.

(** ** The horizon (lines 264-277) *)

Lemma step_running st actions g st' out g' :
  running st ->
  step st actions g = Ok ((st', out), g') ->
  render_mode st' = render_mode st /\
  t st' = (t st + 1)%nat /\
  terminations out = all_flags (Nat.leb 100 (t st + 1)) /\
  truncations out = all_flags (Nat.leb 100 (t st + 1)) /\
  shaped st' /\
  agents st' = (if Nat.leb 100 (t st + 1) then [] else possible_agents).
Proof.
  intros [Hsh Hag] Hstep.
  pose proof (@step_shaped _ _ _ _ _ _ Hsh Hstep) as Hsh'.
  destruct (@step_facts _ _ _ _ _ _ Hsh Hstep)
    as (acts & invites & accepts & _ & _ & _ & _ & _ & Hst & Hout).
  subst st' out.
  cbn [render_mode t terminations truncations agents set_agents_t set_affinity].
  rewrite Hag in Hsh' |- *. unfold all_flags.
  split; [reflexivity|]. split; [reflexivity|]. split; [reflexivity|].
  split; [reflexivity|]. split; [exact Hsh'|]. reflexivity.
Qed.

Lemma steps_quiet acts : forall st g,
  running st -> supported (render_mode st) ->
  Forall valid_actions acts ->
  (t st + length acts <= 99)%nat ->
  exists st' outs g',
    steps st acts g = Ok ((st', outs), g') /\
    running st' /\ render_mode st' = render_mode st /\
    t st' = (t st + length acts)%nat /\
    length outs = length acts /\ Forall quiet outs.
Proof.
  induction acts as [|a acts IH]; intros st g Hrun Hsup Hval Ht.
  - exists st, [], g. simpl.
    split; [reflexivity|]. split; [exact Hrun|]. split; [reflexivity|].
    split; [lia|]. split; [reflexivity | constructor].
  - inversion Hval as [|? ? Ha Hrest]; subst. simpl in Ht.
    destruct (@step_returns st a g Hrun Hsup Ha) as (st1 & o1 & g1 & H1).
    destruct (@step_running _ _ _ _ _ _ Hrun H1) as (Hm & Ht1 & Hterm & Htrunc & Hsh1 & Hag1).
    assert (Hq : Nat.leb 100 (t st + 1) = false) by (apply Nat.leb_gt; lia).
    rewrite Hq in *.
    assert (Hrun1 : running st1) by (split; assumption).
    assert (Hsup1 : supported (render_mode st1)) by (rewrite Hm; assumption).
    destruct (IH st1 g1 Hrun1 Hsup1 Hrest) as (st' & outs & g' & H2 & Hr' & Hm' & Ht' & Hl & HF);
      [lia|].
    exists st', (o1 :: outs), g'. simpl. rewrite H1. cbn [rbind fst snd].
    rewrite H2. cbn [rbind fst snd].
    split; [reflexivity|]. split; [exact Hr'|]. split; [congruence|].
    split; [lia|]. split; [simpl; now rewrite Hl|].
    constructor; [split; assumption | assumption].
Qed.


Lemma reset_running mode seed g : running (snd (fst (reset mode seed g))).
Proof. split; [apply reset_shaped | reflexivity]. Qed.









(** ** The statements at concrete inputs *)

Lemma zero_actions_valid : valid_actions zero_actions.
Proof.
  exists (repeat (mkAction 0 (repeat 0 (2 * N))) N). split.
  - reflexivity.
  - repeat constructor.
Qed.

Lemma env0_reachable : reachable env0.
Proof. apply reach_reset. Qed.

Lemma env0_step_returns :
  exists st' out g', step env0 zero_actions zero_gen = Ok ((st', out), g').
Proof.
  apply step_returns.
  - apply reset_running.
  - left. reflexivity.
  - apply zero_actions_valid.
Qed.



Lemma C5_witness :
  exists st' out g',
    step env0 zero_actions zero_gen = Ok ((st', out), g') /\
    nth 0 (eco_reward st') 0
    = (exp (nth 0 (one_plus_gdp_growth_rate st') 0) - 1)
      - 100 * Rsqr (exp (nth 0 (one_plus_inf_rate st') 0) - 1 - 0.02).
Proof.
  destruct env0_step_returns as (st' & out & g' & H).
  exists st', out, g'. split; [exact H|].
  apply (@C5_eco_reward_formula env0 zero_actions zero_gen st' out g' 0%nat);
    [exact env0_reachable | exact H | unfold N; lia].
Defined.

Lemma C6_witness :
  let M0 := hstack (eco_observation env0) (affinity env0) in
  shape N (4 + N) M0 /\
  (forall r, (r < N)%nat ->
     nth r M0 []
     = [nth r (gdp env0) 0; nth r (one_plus_gdp_growth_rate env0) 0;
        nth r (price_lvl env0) 0; nth r (one_plus_inf_rate env0) 0]
       ++ nth r (affinity env0) []) /\
  getitem obs0 (agent_name 0) = Ok (flatten M0) /\
  getitem obs0 (agent_name 1) = Ok (flatten (roll 1 M0)) /\
  (forall r, (r < N)%nat ->
     nth r (roll 1 M0) [] = nth ((r + N - 1) mod N) M0 []) /\
  nth 0 (roll 1 M0) [] = nth ((N - 1) mod N) M0 [].
Proof.
  apply (@C6_observation_rotation env0 obs0 1%nat).
  - apply ret_reset.
  - unfold N. lia.
Defined.

Lemma C8_witness :
  exists st' out g',
    step env0 zero_actions zero_gen = Ok ((st', out), g') /\
    (0 <= entry (delta_affinity st') 0 1 /\
     entry (affinity st') 0 1
       = entry (affinity env0) 0 1 + entry (delta_affinity st') 0 1 /\
     entry (affinity env0) 0 1 <= entry (affinity st') 0 1).
Proof.
  destruct env0_step_returns as (st' & out & g' & H).
  exists st', out, g'. split; [exact H|].
  apply (@C8_affinity_never_decreases env0 zero_actions zero_gen st' out g'
           0%nat 1%nat);
    [exact env0_reachable | exact H | unfold N; lia | unfold N; lia].
Defined.

Lemma C10_witness :
  entry (affinity env0) 0 0 = 1 /\
  (forall actions g st' out g',
      step env0 actions g = Ok ((st', out), g') ->
      entry (delta_affinity st') 0 0 = 0 /\ entry (affinity st') 0 0 = 1).
Proof.
  apply (@C10_affinity_diagonal_is_one env0 0%nat);
    [exact env0_reachable | unfold N; lia].
Defined.

(** * Further properties of [reset], [step] and [render] *)

(** ** Which exceptions [step] can raise *)

Lemma getitem_raises (V : Type) (d : list (string * V)) k e :
  getitem d k = Raise e -> e = KeyError.
Proof.
  induction d as [|[k' v] d IH]; simpl.
  - intros H; now inversion H.
  - destruct (String.eqb k' k); [discriminate | exact IH].
Qed.

Lemma gather_raises (V : Type) keys (d : list (string * V)) e :
  gather keys d = Raise e -> e = KeyError.
Proof.
  induction keys as [|k keys IH]; simpl; [discriminate|].
  destruct (getitem d k) as [v|e1] eqn:Hk; cbn [rbind].
  - destruct (gather keys d) as [vs|e2]; cbn [rbind]; [discriminate|].
    intros H; inversion H; subst. now apply IH.
  - intros H; inversion H; subst. exact (getitem_raises _ _ Hk).
Qed.

Lemma choice_raises n p g e : choice n p g = Raise e -> e = ValueError.
Proof.
  unfold choice.
  destruct (negb (Nat.eqb (length p) n)); [intros H; now inversion H|].
  destruct (existsb _ p); [intros H; now inversion H|].
  destruct (Rgt_dec _ _); [intros H; now inversion H|].
  cbn. discriminate.
Qed.

Lemma broadcast_to_raises n v e :
  broadcast_to n v = Raise e -> e = ValueError.
Proof.
  unfold broadcast_to. destruct (Nat.eqb (length v) n); [discriminate|].
  destruct v as [|x [|y v]]; try discriminate; intros H; now inversion H.
Qed.

Lemma sample_agent_raises n i pa g e :
  sample_agent n i pa g = Raise e -> e = ValueError.
Proof.
  unfold sample_agent.
  destruct (choice n (softmax (firstn n pa)) g) as [[c g1]|e1] eqn:Hc;
    cbn [rbind fst snd uniform].
  - destruct (broadcast_to n (map sigmoid (skipn n pa))) as [prob|e2] eqn:Hb;
      cbn [rbind]; [discriminate|].
    intros H; inversion H; subst. exact (broadcast_to_raises _ _ Hb).
  - intros H; inversion H; subst. exact (choice_raises _ _ _ Hc).
Qed.

Lemma sample_agents_raises n ipol : forall g e,
  sample_agents n ipol g = Raise e -> e = ValueError.
Proof.
  induction ipol as [|[i pa] rest IH]; intros g e; simpl; [discriminate|].
  destruct (sample_agent n i pa g) as [r1|e1] eqn:H1; cbn [rbind].
  - destruct (sample_agents n rest (snd r1)) as [r2|e2] eqn:H2; cbn [rbind];
      [discriminate|].
    intros H; inversion H; subst. exact (IH _ _ H2).
  - intros H; inversion H; subst. exact (sample_agent_raises _ _ _ _ H1).
Qed.


(** ** A missing agent *)

Lemma gather_missing (V : Type) keys (d : list (string * V)) a :
  In a keys -> getitem d a = Raise KeyError -> gather keys d = Raise KeyError.
Proof.
  intros Hin Hget. induction keys as [|k keys IH]; [contradiction|].
  simpl. destruct (getitem d k) as [v|e] eqn:Hk; cbn [rbind].
  - destruct Hin as [-> | Hin]; [congruence|].
    rewrite (IH Hin). reflexivity.
  - now rewrite (getitem_raises _ _ Hk).
Qed.

(** X2. If the action dictionary has no entry for one of the current
    agents, [step] raises [KeyError] (line 188), whatever the state. *)
Theorem step_missing_agent st actions g a :
  In a (agents st) ->
  getitem actions a = Raise KeyError ->
  step st actions g = Raise KeyError.
Proof.
  intros Hin Hget. unfold step.
  erewrite gather_missing; [reflexivity | exact Hin | exact Hget].
Qed.

Lemma step_missing_agent_witness :
  step env0 actions_without_agent_0 zero_gen = Raise KeyError.
Proof.
  apply (@step_missing_agent env0 actions_without_agent_0 zero_gen
           (agent_name 0)).
  - left. reflexivity.
  - reflexivity.
Defined.

(** ** The render mode *)



(** ** The step counter and the agent list *)

Lemma horizon_invariant st :
  reachable st ->
  (agents st = possible_agents /\ (t st < 100)%nat) \/
  (agents st = [] /\ t st = 100%nat).
Proof.
  induction 1 as [mode seed g | st actions g st' out g' Hr IH Hstep].
  - left. split; [reflexivity | cbn; lia].
  - pose proof (reachable_shaped Hr) as Hsh.
    destruct (@step_facts _ _ _ _ _ _ Hsh Hstep)
      as (acts & invites & accepts & Hag & _ & _ & _ & _ & Hst & _).
    destruct IH as [[_ Ht] | [He _]].
    + subst st'. cbn [agents t set_agents_t].
      destruct (Nat.leb_spec 100 (t st + 1)).
      * right. split; [reflexivity | lia].
      * left. split; [exact Hag | lia].
    + rewrite Hag in He. discriminate He.
Qed.

(** X4. In every state an environment goes through, either the agent
    list is full and [t < 100], or it is empty and [t = 100]: [t] never
    passes the horizon, whatever actions are played. *)
Theorem reachable_horizon st :
  reachable st ->
  (agents st = possible_agents /\ (t st < 100)%nat) \/
  (agents st = [] /\ t st = 100%nat).
Proof.
  induction 1 as [mode seed g | st actions g st' out g' Hr IH Hstep].
  - left. split; [reflexivity | cbn; lia].
  - pose proof (reachable_shaped Hr) as Hsh.
    destruct (@step_facts _ _ _ _ _ _ Hsh Hstep)
      as (acts & invites & accepts & Hag & _ & _ & _ & _ & Hst & _).
    destruct IH as [[_ Ht] | [He _]].
    + subst st'. cbn [agents t set_agents_t].
      destruct (Nat.leb_spec 100 (t st + 1)).
      * right. split; [reflexivity | lia].
      * left. split; [exact Hag | lia].
    + rewrite Hag in He. discriminate He.
Qed.

Lemma reachable_horizon_witness :
  (agents env0 = possible_agents /\ (t env0 < 100)%nat) \/
  (agents env0 = [] /\ t env0 = 100%nat).
Proof. exact (@reachable_horizon env0 env0_reachable). Defined.

(** X5. Once the episode is over (the agent list is empty), every further
    [step] raises [ValueError] until [reset]: the action arrays of shape
    (0,) do not combine with the state arrays of shape (N,) (lines
    188-195). *)
Theorem step_after_done st actions g :
  reachable st -> agents st = [] ->
  step st actions g = Raise ValueError.
Proof.
  intros Hr He. pose proof (reachable_shaped Hr) as Hsh.
  unfold step. rewrite He. cbn [gather rbind map length].
  rewrite (sh_gdp Hsh). reflexivity.
Qed.

Lemma steps_reachable acts : forall st g st' outs g',
  reachable st -> steps st acts g = Ok ((st', outs), g') -> reachable st'.
Proof.
  induction acts as [|a acts IH]; intros st g st' outs g' Hr H; simpl in H.
  - inversion H; subst. exact Hr.
  - destruct (step st a g) as [[[s1 o1] g1]|] eqn:H1; [|discriminate].
    cbn [rbind fst snd] in H.
    destruct (steps s1 acts g1) as [[[s2 o2] g2]|] eqn:H2; [|discriminate].
    cbn [rbind fst snd] in H. inversion H; subst.
    eapply IH; [|exact H2]. eapply reach_step; [exact Hr | exact H1].
Qed.

Lemma finished_state_exists :
  exists st, reachable st /\ agents st = [].
Proof.
  pose (st0 := snd (fst (reset (Some "human"%string) None zero_gen))).
  pose (g0 := snd (reset (Some "human"%string) None zero_gen)).
  assert (Hval : Forall valid_actions (repeat zero_actions 99)).
  { apply Forall_forall. intros a Ha. apply repeat_spec in Ha. subst a.
    exact zero_actions_valid. }
  destruct (@steps_quiet (repeat zero_actions 99) st0 g0)
    as (st99 & outs & g99 & H & Hrun & Hm & Ht & _ & _).
  - apply reset_running.
  - left. reflexivity.
  - exact Hval.
  - rewrite repeat_length. cbn. lia.
  - assert (Hsup : supported (render_mode st99))
      by (rewrite Hm; left; reflexivity).
    destruct (@step_returns st99 zero_actions g99 Hrun Hsup zero_actions_valid)
      as (st100 & last & g100 & Hstep).
    destruct (@step_running _ _ _ _ _ _ Hrun Hstep) as (_ & _ & _ & _ & _ & Hag).
    rewrite Ht, repeat_length in Hag. cbn in Hag.
    exists st100. split; [|exact Hag].
    eapply reach_step; [|exact Hstep].
    eapply steps_reachable; [|exact H]. apply reach_reset.
Qed.

Lemma step_after_done_witness :
  exists st, reachable st /\ agents st = [] /\
             step st zero_actions zero_gen = Raise ValueError.
Proof.
  destruct finished_state_exists as (st & Hr & He).
  exists st. split; [exact Hr|]. split; [exact He|].
  exact (@step_after_done st zero_actions zero_gen Hr He).
Defined.

(** ** The shape of the observations *)

Lemma flatten_length n m M : shape n m M -> length (flatten M) = (n * m)%nat.
Proof.
  intros [Hn Hr]. subst n. unfold flatten.
  induction M as [|r M IH]; simpl; [reflexivity|].
  inversion Hr; subst. rewrite length_app, IH by assumption. reflexivity.
Qed.

Lemma roll_In (A : Type) k (rows : list A) x : In x (roll k rows) -> In x rows.
Proof.
  unfold roll. destruct (length rows) as [|n']; [auto|].
  intros H. apply in_app_or in H.
  rewrite <- (firstn_skipn (S n' - k mod S n') rows).
  apply in_or_app. destruct H; [right | left]; assumption.
Qed.

Lemma roll_shape n m k M : shape n m M -> shape n m (roll k M).
Proof.
  intros [Hn Hr]. split.
  - now rewrite roll_length.
  - apply Forall_forall. intros r Hin. rewrite Forall_forall in Hr.
    apply Hr. exact (roll_In _ _ _ Hin).
Qed.

(** X6. Every observation handed out by [reset] or [step] is a flat
    vector of [(N + 4) * N] reals, the shape [observation_space]
    announces, for each of the N agents. *)
Theorem observation_length st obs i :
  returned_with st obs -> (i < N)%nat ->
  exists v, getitem obs (agent_name i) = Ok v /\
            length v = observation_space (agent_name i).
Proof.
  intros Hret Hi.
  destruct (returned_with_spec Hret) as [Hreach ->].
  pose proof (reachable_shaped Hreach) as Hsh.
  pose proof (hstack_shape (eco_observation_shape Hsh) (sh_affinity Hsh)) as HM.
  exists (flatten (roll i (hstack (eco_observation st) (affinity st)))).
  split; [exact (build_observations_getitem _ _ Hi)|].
  rewrite (flatten_length (roll_shape i HM)). reflexivity.
Qed.

Lemma observation_length_witness :
  exists v, getitem obs0 (agent_name 3) = Ok v /\
            length v = observation_space (agent_name 3).
Proof.
  apply (@observation_length env0 obs0 3%nat).
  - apply ret_reset.
  - unfold N. lia.
Defined.

(** ** Symmetry and growth of the affinity matrix *)

(** X7. The affinity matrix is symmetric in every state an environment
    goes through: [reset] installs the identity and the update of line
    250 is symmetric in the two agents. *)
Theorem affinity_symmetric st i j :
  reachable st -> (i < N)%nat -> (j < N)%nat ->
  entry (affinity st) i j = entry (affinity st) j i.
Proof.
  intros Hreach Hi Hj.
  induction Hreach as [mode seed g | st actions g st' out g' Hr IH Hstep].
  - rewrite reset_affinity, (eye_entry Hi Hj), (eye_entry Hj Hi), Nat.eqb_sym.
    reflexivity.
  - pose proof (reachable_shaped Hr) as Hsh.
    destruct (@step_facts _ _ _ _ _ _ Hsh Hstep)
      as (acts & invites & accepts & _ & _ & HI & HA & _ & Hst & _).
    assert (HN : (0 < N)%nat) by lia.
    pose proof (affinity_delta_shape HN (drawn_shape HI) (drawn_shape HA)) as Hd.
    subst st'. cbn [affinity set_agents_t set_affinity].
    rewrite (mmap2_entry Rplus (sh_affinity Hsh) Hd Hi Hj).
    rewrite (mmap2_entry Rplus (sh_affinity Hsh) Hd Hj Hi).
    rewrite (affinity_delta_entry (drawn_shape HI) (drawn_shape HA) Hi Hj).
    rewrite (affinity_delta_entry (drawn_shape HI) (drawn_shape HA) Hj Hi).
    rewrite IH. lra.
Qed.

Lemma affinity_symmetric_witness :
  exists st' out g',
    step env0 zero_actions zero_gen = Ok ((st', out), g') /\
    entry (affinity st') 2 5 = entry (affinity st') 5 2.
Proof.
  destruct env0_step_returns as (st' & out & g' & H).
  exists st', out, g'. split; [exact H|].
  apply (@affinity_symmetric st' 2%nat 5%nat);
    [exact (@reach_step _ _ _ _ _ _ env0_reachable H)
    | unfold N; lia | unfold N; lia].
Defined.

Lemma one_hot_binary c n : Forall zero_or_one (one_hot c n).
Proof.
  unfold one_hot. apply Forall_map, Forall_forall. intros k _.
  destruct (Nat.eqb k c); [right | left]; reflexivity.
Qed.

Lemma accept_binary u prob :
  Forall zero_or_one (map2 (fun x p => if Rlt_dec x p then 1 else 0) u prob).
Proof.
  revert prob. induction u as [|x u IH]; intros [|p prob]; simpl; auto.
  constructor; [|apply IH].
  destruct (Rlt_dec x p); [right | left]; reflexivity.
Qed.

Lemma sample_agent_binary n i pa g inv acc g' :
  sample_agent n i pa g = Ok ((inv, acc), g') ->
  Forall zero_or_one inv /\ Forall zero_or_one acc.
Proof.
  unfold sample_agent.
  destruct (choice n (softmax (firstn n pa)) g) as [[c g1]|]; [|discriminate].
  cbn [rbind fst snd uniform].
  destruct (broadcast_to n (map sigmoid (skipn n pa))) as [prob|];
    [|discriminate].
  cbn [rbind]. intros H; inversion H; subst; clear H.
  split; apply Forall_set_nth;
    [apply one_hot_binary | now left | apply accept_binary | now left].
Qed.

Lemma sample_agents_binary n ipol : forall g invites accepts g',
  sample_agents n ipol g = Ok ((invites, accepts), g') ->
  Forall (Forall zero_or_one) invites /\ Forall (Forall zero_or_one) accepts.
Proof.
  induction ipol as [|[i pa] rest IH]; intros g invites accepts g'; simpl.
  - intros H; inversion H; subst. split; constructor.
  - destruct (sample_agent n i pa g) as [[[inv acc] g1]|] eqn:H1;
      [|discriminate]. cbn [rbind fst snd].
    destruct (sample_agents n rest g1) as [[[I A] g2]|] eqn:H2;
      [|discriminate]. cbn [rbind fst snd].
    intros H; inversion H; subst; clear H.
    destruct (sample_agent_binary _ _ _ _ H1) as [Hi Ha].
    destruct (IH _ _ _ _ H2) as [HI HA].
    split; constructor; assumption.
Qed.

Lemma binary_entry n (M : matrix) i j :
  shape n n M -> Forall (Forall zero_or_one) M ->
  (i < n)%nat -> (j < n)%nat -> zero_or_one (entry M i j).
Proof.
  intros HM HF Hi Hj. unfold entry.
  rewrite Forall_forall in HF.
  assert (Hrow : Forall zero_or_one (nth i M []))
    by (apply HF, nth_In; exact (shape_lt HM Hi)).
  rewrite Forall_forall in Hrow. apply Hrow, nth_In.
  now rewrite (shape_row HM Hi).
Qed.

(** a [step] that returns drew 0/1 matrices; [delta_affinity] is bounded *)
Lemma step_delta_bounds st actions g st' out g' i j :
  shaped st ->
  step st actions g = Ok ((st', out), g') ->
  (i < N)%nat -> (j < N)%nat ->
  affinity st' = mmap2 Rplus (affinity st) (delta_affinity st') /\
  shape N N (delta_affinity st') /\
  0 <= entry (delta_affinity st') i j <= delta.
Proof.
  intros Hsh Hstep Hi Hj.
  destruct (step_inv _ _ _ Hstep)
    as (acts & invites & accepts & Hg & Hlen & Hs & _ & Hst & _).
  destruct (@step_facts _ _ _ _ _ _ Hsh Hstep)
    as (acts' & invites' & accepts' & Hag & _ & _ & _ & _ & _ & _).
  assert (Hn : length (agents st) = N) by (rewrite Hag; reflexivity).
  rewrite Hn in Hs. rewrite (sh_gdp Hsh) in Hlen.
  destruct (sample_agents_rows _ _ _ Hs) as [HI HA].
  destruct (sample_agents_binary _ _ _ Hs) as [BI BA].
  assert (Hpol : length (map pol acts) = N) by now rewrite length_map.
  pose proof (rows_drawn _ Hpol HI) as DI.
  pose proof (rows_drawn _ Hpol HA) as DA.
  assert (HN : (0 < N)%nat) by lia.
  subst st'. cbn [affinity delta_affinity set_agents_t set_affinity].
  split; [reflexivity|].
  split; [exact (affinity_delta_shape HN (drawn_shape DI) (drawn_shape DA))|].
  rewrite (affinity_delta_entry (drawn_shape DI) (drawn_shape DA) Hi Hj).
  pose proof (binary_entry (drawn_shape DI) BI Hi Hj) as [E1|E1];
  pose proof (binary_entry (drawn_shape DI) BI Hj Hi) as [E2|E2];
  pose proof (binary_entry (drawn_shape DA) BA Hi Hj) as [E3|E3];
  pose proof (binary_entry (drawn_shape DA) BA Hj Hi) as [E4|E4];
  rewrite E1, E2, E3, E4; unfold delta; lra.
Qed.

(** X8. After [t] steps since [reset], every off-diagonal affinity entry
    lies between 0 and [delta * t = 0.01 * t]: one step adds at most
    [delta] to an entry, so within the 100-step horizon no off-diagonal
    entry exceeds 1. *)
Theorem affinity_bounded_by_steps st i j :
  reachable st -> (i < N)%nat -> (j < N)%nat -> i <> j ->
  0 <= entry (affinity st) i j <= delta * INR (t st) /\
  entry (affinity st) i j <= 1.
Proof.
  intros Hreach Hi Hj Hij.
  assert (Hb : 0 <= entry (affinity st) i j <= delta * INR (t st)).
  { induction Hreach as [mode seed g | st actions g st' out g' Hr IH Hstep].
    - rewrite reset_affinity, (eye_entry Hi Hj).
      destruct (Nat.eqb_spec i j); [contradiction|]. cbn. lra.
    - pose proof (reachable_shaped Hr) as Hsh.
      destruct (@step_delta_bounds _ _ _ _ _ _ _ _ Hsh Hstep Hi Hj)
        as (Haff & Hd & Hdb).
      destruct (@step_running st actions g st' out g') as (_ & Ht & _);
        [|exact Hstep|].
      + split; [exact Hsh|].
        destruct (@step_facts _ _ _ _ _ _ Hsh Hstep)
          as (? & ? & ? & Hag & _). exact Hag.
      + rewrite Haff, (mmap2_entry Rplus (sh_affinity Hsh) Hd Hi Hj), Ht.
        rewrite plus_INR. cbn [INR]. unfold delta in *. lra. }
  split; [exact Hb|].
  assert (H100 : INR 100 = 100) by (rewrite INR_IZR_INZ; reflexivity).
  destruct (horizon_invariant Hreach) as [[_ Ht] | [_ Ht]].
  - apply lt_INR in Ht. rewrite H100 in Ht. unfold delta in Hb. lra.
  - rewrite Ht, H100 in Hb. unfold delta in Hb. lra.
Qed.

Lemma affinity_bounded_by_steps_witness :
  exists st' out g',
    step env0 zero_actions zero_gen = Ok ((st', out), g') /\
    (0 <= entry (affinity st') 0 1 <= delta * INR (t st') /\
     entry (affinity st') 0 1 <= 1).
Proof.
  destruct env0_step_returns as (st' & out & g' & H).
  exists st', out, g'. split; [exact H|].
  apply (@affinity_bounded_by_steps st' 0%nat 1%nat);
    [exact (@reach_step _ _ _ _ _ _ env0_reachable H)
    | unfold N; lia | unfold N; lia | discriminate].
Defined.

(** ** Trade shares (lines 202-213) *)

Lemma div_by_col_nth n m M d i :
  shape n m M -> length d = n -> (i < n)%nat ->
  nth i (div_by_col M d) [] = map (fun x => x / nth i d 0) (nth i M []).
Proof.
  intros HM Hd Hi. unfold div_by_col.
  apply (@map2_nth _ _ _ (fun r di => map (fun x => x / di) r) M d [] 0 []);
    [exact (shape_lt HM Hi) | lia].
Qed.

Lemma trade_coeff_star_row n real i :
  shape n n real -> (i < n)%nat ->
  nth i (trade_coeff_star real) []
  = map (fun x => x / Rsum (map exp (nth i real [])))
        (map exp (nth i real [])).
Proof.
  intros Hs Hi. unfold trade_coeff_star.
  pose proof (mmap_shape exp Hs) as HE.
  assert (Hd : length (sum_axis1 (mmap exp real)) = n)
    by (unfold sum_axis1; rewrite length_map; apply HE).
  rewrite (@div_by_col_nth _ _ _ _ _ HE Hd Hi). unfold sum_axis1.
  rewrite (@nth_map_in _ _ Rsum (mmap exp real) i [] 0)
    by exact (shape_lt HE Hi).
  assert (E : nth i (mmap exp real) [] = map exp (nth i real [])).
  { unfold mmap. apply nth_map_in. exact (shape_lt Hs Hi). }
  unfold vec, matrix in *. rewrite !E. reflexivity.
Qed.

Lemma trade_coeff_col n real i :
  shape n n real -> (i < n)%nat ->
  col i (trade_coeff real) = nth i (trade_coeff_star real) [].
Proof.
  intros Hs Hi. assert (Hn : (0 < n)%nat) by lia.
  pose proof (trade_coeff_shape Hs Hn) as HT.
  pose proof (trade_coeff_star_shape Hs) as HT'.
  apply (nth_ext _ _ 0 0).
  - unfold col. rewrite length_map, (shape_row HT' Hi). apply HT.
  - intros r Hr. unfold col in Hr |- *. rewrite length_map in Hr.
    assert (Hr' : (r < n)%nat) by (destruct HT as [E _]; rewrite <- E; exact Hr).
    rewrite (@nth_map_in _ _ (fun row => nth i row 0) _ r [] 0) by exact Hr.
    exact (trade_coeff_entry Hs Hr' Hi).
Qed.

(** X9. In every [step] the trade coefficients are shares: each row of
    [TRADE_COEFF_STAR] and each column of [TRADE_COEFF] consists of
    positive numbers that add up to 1. *)
Theorem trade_shares_sum_to_one st eco_actions i :
  (i < length eco_actions)%nat ->
  Rsum (nth i (TRADE_COEFF_STAR (economy st eco_actions)) []) = 1 /\
  Rsum (col i (TRADE_COEFF (economy st eco_actions))) = 1 /\
  Forall (fun x => 0 < x)
         (nth i (TRADE_COEFF_STAR (economy st eco_actions)) []) /\
  Forall (fun x => 0 < x)
         (col i (TRADE_COEFF (economy st eco_actions))).
Proof.
  intros Hi.
  pose proof (real_exchange_rate_shape st eco_actions) as Hs.
  cbn [real_exchange_rate TRADE_COEFF TRADE_COEFF_STAR economy] in *.
  set (real := mmap (fun d => - ex_int_degree * d)
                 (outer_sub (map int_rate eco_actions)
                    (map int_rate eco_actions))) in *.
  assert (Hne : nth i real [] <> []).
  { intros E. pose proof (shape_row Hs Hi) as Hl. rewrite E in Hl.
    simpl in Hl. lia. }
  pose proof (Rsum_exp_pos Hne) as Hpos.
  rewrite (trade_coeff_col Hs Hi), (trade_coeff_star_row Hs Hi).
  assert (Hsum : Rsum (map (fun x => x / Rsum (map exp (nth i real [])))
                        (map exp (nth i real []))) = 1).
  { rewrite Rsum_map_div. unfold Rdiv. apply Rinv_r. lra. }
  assert (Hall : Forall (fun x => 0 < x)
                   (map (fun x => x / Rsum (map exp (nth i real [])))
                      (map exp (nth i real [])))).
  { apply Forall_map, Forall_map, Forall_forall. intros x _.
    apply Rdiv_lt_0_compat; [apply exp_pos | exact Hpos]. }
  split; [exact Hsum|]. split; [exact Hsum|].
  split; exact Hall.
Qed.

Lemma trade_shares_sum_to_one_witness :
  Rsum (nth 0 (TRADE_COEFF_STAR (economy env0 (repeat 0 7))) []) = 1 /\
  Rsum (col 0 (TRADE_COEFF (economy env0 (repeat 0 7)))) = 1 /\
  Forall (fun x => 0 < x)
         (nth 0 (TRADE_COEFF_STAR (economy env0 (repeat 0 7))) []) /\
  Forall (fun x => 0 < x)
         (col 0 (TRADE_COEFF (economy env0 (repeat 0 7)))).
Proof.
  apply (@trade_shares_sum_to_one env0 (repeat 0 7) 0%nat).
  cbn. lia.
Defined.

(** ** Interest rate and demand (lines 194-195) *)

(** X10. In binary64 the proxy of line 194 saturates at both ends: it
    is exactly the double [0.20] for every action [a >= 54] and exactly
    0 for every action [b <= -1024], where [exp(-b)] overflows; the
    computed proxy is therefore not strictly increasing in the action. *)
Theorem int_rate_saturates a b :
  54 <= a -> b <= -1024 ->
  int_rate_f64 a = c020 /\ int_rate_f64 b = 0 /\
  int_rate_f64 (a + 1) = int_rate_f64 a.
Proof.
  intros Ha Hb.
  assert (E : int_rate_f64 a = c020) by (apply int_rate_f64_large; exact Ha).
  split; [exact E|]. split; [apply int_rate_f64_small; exact Hb|].
  rewrite E. apply int_rate_f64_large. lra.
Qed.

Lemma int_rate_saturates_witness :
  int_rate_f64 54 = c020 /\ int_rate_f64 (-1024) = 0 /\
  int_rate_f64 (54 + 1) = int_rate_f64 54.
Proof. apply (@int_rate_saturates 54 (-1024)); lra. Defined.



(** ** Trade balance (lines 205-217) *)

Lemma Rsum_app a b : Rsum (a ++ b) = Rsum a + Rsum b.
Proof. induction a as [|x a IH]; simpl; [lra | rewrite IH; lra]. Qed.

Lemma big_sum_S n f : big_sum (S n) f = big_sum n f + f n.
Proof.
  unfold big_sum. rewrite seq_S, map_app, Rsum_app. simpl. lra.
Qed.

Lemma big_sum_ext n f g :
  (forall i, (i < n)%nat -> f i = g i) -> big_sum n f = big_sum n g.
Proof.
  induction n as [|n IH]; intros H; [reflexivity|].
  rewrite !big_sum_S, IH, (H n) by (intros; try apply H; lia). reflexivity.
Qed.

Lemma big_sum_zero n : big_sum n (fun _ => 0) = 0.
Proof.
  induction n as [|n IH]; [reflexivity | rewrite big_sum_S, IH; lra].
Qed.

Lemma big_sum_plus n f g :
  big_sum n (fun i => f i + g i) = big_sum n f + big_sum n g.
Proof.
  induction n as [|n IH]; [unfold big_sum; simpl; lra|].
  rewrite !big_sum_S, IH. lra.
Qed.

Lemma big_sum_mult_r n f c :
  big_sum n (fun j => f j * c) = big_sum n f * c.
Proof.
  induction n as [|n IH]; [unfold big_sum; simpl; lra|].
  rewrite !big_sum_S, IH. lra.
Qed.

Lemma big_sum_swap n m (F : nat -> nat -> R) :
  big_sum n (fun i => big_sum m (F i))
  = big_sum m (fun j => big_sum n (fun i => F i j)).
Proof.
  induction n as [|n IH].
  - unfold big_sum at 1. simpl. symmetry.
    rewrite <- (big_sum_zero m). apply big_sum_ext. intros; reflexivity.
  - rewrite big_sum_S, IH, <- big_sum_plus.
    apply big_sum_ext. intros j _. now rewrite big_sum_S.
Qed.

Lemma Rsum_big_sum (v : vec) n :
  length v = n -> Rsum v = big_sum n (fun i => nth i v 0).
Proof.
  intros Hv. unfold big_sum. f_equal. apply (nth_ext _ _ 0 0).
  - now rewrite length_map, length_seq.
  - intros i Hi. rewrite nth_map_seq by lia. reflexivity.
Qed.

Lemma Rsum_map2_minus (a b : vec) :
  length a = length b -> Rsum (map2 Rminus a b) = Rsum a - Rsum b.
Proof.
  revert b. induction a as [|x a IH]; intros [|y b] H; simpl in *;
    try discriminate; [lra|].
  rewrite IH by lia. lra.
Qed.

(** what leaves the exporters is what the importers pay *)
Lemma trade_flows_balance n real (f : vec) :
  shape n n real -> (0 < n)%nat -> length f = n ->
  Rsum (exports real f)
  = Rsum (map2 Rmult (sum_axis1 (fill_diagonal (trade_coeff real) 0)) f).
Proof.
  intros Hs Hn Hf.
  pose proof (fill_diagonal_shape 0 (trade_coeff_shape Hs Hn)) as HT.
  pose proof (transpose_shape HT Hn) as HTt.
  pose proof (exports_length f Hs Hn) as HlE.
  pose proof (imports_rows_length Hs Hn) as HlS.
  unfold exports in *.
  set (TEMP := fill_diagonal (trade_coeff real) 0) in *.
  assert (HlI : length (map2 Rmult (sum_axis1 TEMP) f) = n)
    by (rewrite map2_length; lia).
  rewrite (@Rsum_big_sum _ _ HlE), (@Rsum_big_sum _ _ HlI).
  transitivity
    (big_sum n (fun i => big_sum n (fun j => entry TEMP j i * nth j f 0))).
  { apply big_sum_ext. intros i Hi. unfold matvec.
    rewrite (@nth_map_in _ _ (fun r => dot r f) (transpose TEMP) i [] 0)
      by exact (shape_lt HTt Hi).
    rewrite (@dot_big_sum n) by (try exact (shape_row HTt Hi); exact Hf).
    apply big_sum_ext. intros j Hj.
    change (nth j (nth i (transpose TEMP) []) 0)
      with (entry (transpose TEMP) i j).
    now rewrite (transpose_entry HT Hj Hi). }
  rewrite big_sum_swap.
  apply big_sum_ext. intros i Hi.
  rewrite (@map2_nth _ _ _ Rmult (sum_axis1 TEMP) f 0 0 0) by lia.
  unfold sum_axis1.
  rewrite (@nth_map_in _ _ Rsum TEMP i [] 0) by exact (shape_lt HT Hi).
  pose proof (@Rsum_big_sum _ _ (shape_row HT Hi)) as HR.
  unfold vec, matrix in *. rewrite HR, <- big_sum_mult_r.
  apply big_sum_ext. intros j _. reflexivity.
Qed.

Lemma economy_trade_balance st eco_actions :
  length (gdp st) = N -> length eco_actions = N ->
  Rsum (EX (economy st eco_actions)) = Rsum (IM (economy st eco_actions)) /\
  Rsum (NET_EX (economy st eco_actions)) = 0.
Proof.
  intros Hg He.
  pose proof (real_exchange_rate_shape st eco_actions) as Hs.
  rewrite He in Hs.
  assert (HN : (0 < N)%nat) by (unfold N; lia).
  cbn [real_exchange_rate EX IM NET_EX economy] in *.
  set (real := mmap (fun d => - ex_int_degree * d)
                 (outer_sub (map int_rate eco_actions)
                    (map int_rate eco_actions))) in *.
  set (for_exp := map2 (fun tau d => (1 - tau) * exp d) tau_values
                    (map2 Rminus (gdp st) (map int_rate eco_actions))).
  assert (Hf : length for_exp = N).
  { unfold for_exp. rewrite !map2_length, length_map, Hg, He.
    reflexivity. }
  pose proof (@trade_flows_balance _ _ _ Hs HN Hf) as Hbal.
  split; [exact Hbal|].
  rewrite Rsum_map2_minus.
  - rewrite Hbal. lra.
  - rewrite (exports_length for_exp Hs HN), map2_length,
      (imports_rows_length Hs HN), Hf. lia.
Qed.

(** X12. After every [step] that returns, trade is balanced across the
    agents: total exports equal total imports, so the net exports of the
    agents sum to zero. *)
Theorem net_exports_sum_to_zero st actions g st' out g' :
  reachable st ->
  step st actions g = Ok ((st', out), g') ->
  Rsum (EX st') = Rsum (IM st') /\ Rsum (NET_EX st') = 0.
Proof.
  intros Hreach Hstep.
  pose proof (reachable_shaped Hreach) as Hsh.
  destruct (@step_facts _ _ _ _ _ _ Hsh Hstep)
    as (acts & invites & accepts & _ & Hlen & _ & _ & _ & Hst & _).
  subst st'.
  assert (He : length (map eco acts) = N) by now rewrite length_map.
  destruct (@economy_trade_balance st _ (sh_gdp Hsh) He) as [H1 H2].
  split; [exact H1 | exact H2].
Qed.

Lemma net_exports_sum_to_zero_witness :
  exists st' out g',
    step env0 zero_actions zero_gen = Ok ((st', out), g') /\
    (Rsum (EX st') = Rsum (IM st') /\ Rsum (NET_EX st') = 0).
Proof.
  destruct env0_step_returns as (st' & out & g' & H).
  exists st', out, g'. split; [exact H|].
  apply (@net_exports_sum_to_zero env0 zero_actions zero_gen st' out g');
    [exact env0_reachable | exact H].
Defined.

(** ** The inflation penalty (line 228) *)




(** ** The size of one affinity update (lines 244-250) *)

(** X14. In one [step] the affinity between two agents rises by 0, by
    [delta / 2 = 0.005] or by [delta = 0.01], and by nothing else: each
    direction of an accepted invitation contributes [delta / 2]. *)
Theorem affinity_increment_values st actions g st' out g' i j :
  reachable st ->
  step st actions g = Ok ((st', out), g') ->
  (i < N)%nat -> (j < N)%nat ->
  entry (affinity st') i j
  = entry (affinity st) i j + entry (delta_affinity st') i j /\
  (entry (delta_affinity st') i j = 0 \/
   entry (delta_affinity st') i j = 0.005 \/
   entry (delta_affinity st') i j = 0.01).
Proof.
  intros Hreach Hstep Hi Hj.
  pose proof (reachable_shaped Hreach) as Hsh.
  destruct (step_inv _ _ _ Hstep)
    as (acts & invites & accepts & Hg & Hlen & Hs & _ & Hst & _).
  destruct (@step_facts _ _ _ _ _ _ Hsh Hstep)
    as (acts' & invites' & accepts' & Hag & _ & _ & _ & _ & _ & _).
  assert (Hn : length (agents st) = N) by (rewrite Hag; reflexivity).
  rewrite Hn in Hs. rewrite (sh_gdp Hsh) in Hlen.
  destruct (sample_agents_rows _ _ _ Hs) as [HI HA].
  destruct (sample_agents_binary _ _ _ Hs) as [BI BA].
  assert (Hpol : length (map pol acts) = N) by now rewrite length_map.
  pose proof (rows_drawn _ Hpol HI) as DI.
  pose proof (rows_drawn _ Hpol HA) as DA.
  assert (HN : (0 < N)%nat) by lia.
  pose proof (affinity_delta_shape HN (drawn_shape DI) (drawn_shape DA)) as HD.
  subst st'. cbn [affinity delta_affinity set_agents_t set_affinity economy].
  split.
  - exact (mmap2_entry Rplus (sh_affinity Hsh) HD Hi Hj).
  - rewrite (affinity_delta_entry (drawn_shape DI) (drawn_shape DA) Hi Hj).
    pose proof (binary_entry (drawn_shape DI) BI Hi Hj) as [E1|E1];
    pose proof (binary_entry (drawn_shape DI) BI Hj Hi) as [E2|E2];
    pose proof (binary_entry (drawn_shape DA) BA Hi Hj) as [E3|E3];
    pose proof (binary_entry (drawn_shape DA) BA Hj Hi) as [E4|E4];
    rewrite E1, E2, E3, E4; unfold delta;
      solve [left; lra | right; left; lra | right; right; lra].
Qed.

Lemma affinity_increment_values_witness :
  exists st' out g',
    step env0 zero_actions zero_gen = Ok ((st', out), g') /\
    (entry (affinity st') 0 1
     = entry (affinity env0) 0 1 + entry (delta_affinity st') 0 1 /\
     (entry (delta_affinity st') 0 1 = 0 \/
      entry (delta_affinity st') 0 1 = 0.005 \/
      entry (delta_affinity st') 0 1 = 0.01)).
Proof.
  destruct env0_step_returns as (st' & out & g' & H).
  exists st', out, g'. split; [exact H|].
  apply (@affinity_increment_values env0 zero_actions zero_gen st' out g'
           0%nat 1%nat);
    [exact env0_reachable | exact H | unfold N; lia | unfold N; lia].
Defined.

(** ** What [reset] and [step] take from the generator *)







(** ** Which political actions [step] accepts (lines 236-243) *)










(** ** What [render] reports in human mode (lines 93-147) *)

Lemma step_t st actions g st' out g' :
  reachable st ->
  step st actions g = Ok ((st', out), g') ->
  t st' = (t st + 1)%nat.
Proof.
  intros Hreach Hstep.
  pose proof (reachable_shaped Hreach) as Hsh.
  destruct (@step_facts _ _ _ _ _ _ Hsh Hstep)
    as (acts & invites & accepts & _ & _ & _ & _ & _ & Hst & _).
  subst st'. reflexivity.
Qed.




